(** * join-pdf: the join list, its parser, the validator and the assembler

    A shallow embedding of [src/join-pdf.ts] ([listPdfs], [parsePages],
    [join], [testList]) and of [parsePagesArg] and the option handling
    of [src/cli.ts], and the properties of them that the specification
    states.

    Modelling conventions.
    - Strings are sequences of characters with code points below 256.
    - A JavaScript [number] is a value of [number] below. An integer is
      kept as it is; [parseInt] and [p++] give the nearest double, so
      integers are exact up to 2^53 and rounded beyond, and [String]
      prints them as JavaScript does, in exponent notation from 1e21
      on. A finite number that is not an integer is kept by its integer
      part and its printed form. NaN and the two infinities are values
      of their own.
    - An array holds at most 2^32 - 1 elements: the [push] that would
      make it longer throws a [RangeError]. (An engine short of memory
      gives up earlier; no property below depends on where.)
    - [throw] is the constructor [Throw] of [res]; a property read from
      [undefined] is a [TypeError].
    - Reading the files and pdf-lib are outside. A loaded document is
      known by its page count, and the output document by the sequence
      of its pages. Of pdf-lib the model keeps that [copyPages] reads
      [srcPages[index].node], a [TypeError] for an index that is no
      integer, and that [save] adds a page to a document without
      pages. *)

From Stdlib Require Import Ascii String.
From stdpp Require Import gmap strings list pretty.
From Equations Require Import Equations.

Open Scope Z_scope.

(** ** Numbers *)

(** The values of the type [number] as the module observes them: it
    compares them with integers, uses them as array indices and property
    keys, and prints them. *)
Inductive number : Type :=
| Int (z : Z)                    (* an integer *)
| Frac (floor : Z) (txt : string)
      (* a finite non-integral x, floor < x < floor + 1, printed as txt *)
| NaN
| Inf (negative : bool).         (* Infinity and -Infinity *)

Global Instance number_eq_dec : EqDecision number.
Proof. solve_decision. Defined.

(** [x < c] for an integer [c]; every comparison with NaN is false. *)
Definition num_lt (x : number) (c : Z) : bool :=
  match x with
  | Int z => bool_decide (z < c)
  | Frac fl _ => bool_decide (fl < c)
  | NaN => false
  | Inf neg => neg
  end.

(** [x > c] for an integer [c]. *)
Definition num_gt (x : number) (c : Z) : bool :=
  match x with
  | Int z => bool_decide (c < z)
  | Frac fl _ => bool_decide (c ≤ fl)
  | NaN => false
  | Inf neg => negb neg
  end.

(** The numbers that [parseInt] returns and that a counter started from
    one of them takes: a whole number that is not negative, [Infinity],
    or [NaN]. *)
Inductive whole : Type :=
| Whole (n : N)
| WInfinity
| WNaN.

Global Instance whole_eq_dec : EqDecision whole.
Proof. solve_decision. Defined.

Definition to_number (w : whole) : number :=
  match w with
  | Whole n => Int (Z.of_N n)
  | WInfinity => Inf false
  | WNaN => NaN
  end.

(** The double nearest to a natural number, ties to the even mantissa:
    the number itself up to 2^53; beyond, the 53 leading bits rounded;
    [Infinity] from 2^1024 - 2^970 on. *)
Definition nearest_double (n : N) : whole :=
  if (n <=? 2 ^ 53)%N then Whole n
  else
    let k := (N.log2 n - 52)%N in
    let q := (n / 2 ^ k)%N in
    let r := (n mod 2 ^ k)%N in
    let half := (2 ^ (k - 1))%N in
    let q' := if (r <? half)%N then q
              else if (half <? r)%N then (q + 1)%N
              else if N.even q then q else (q + 1)%N in
    if (2 ^ 1024 <=? q' * 2 ^ k)%N then WInfinity else Whole (q' * 2 ^ k).

(** [p++] *)
Definition incr (p : whole) : whole :=
  match p with
  | Whole n => nearest_double (n + 1)
  | WInfinity => WInfinity
  | WNaN => WNaN
  end.

(** [x <= y] *)
Definition whole_le (x y : whole) : bool :=
  match x, y with
  | Whole a, Whole b => bool_decide (a ≤ b)%N
  | Whole _, WInfinity => true
  | WInfinity, WInfinity => true
  | _, _ => false
  end.

(** [x > y] *)
Definition whole_gt (x y : whole) : bool :=
  match x, y with
  | Whole a, Whole b => bool_decide (b < a)%N
  | WInfinity, Whole _ => true
  | _, _ => false
  end.

(** *** Printing *)

(** Number::toString looks for the decimal of fewest significant digits
    that reads back as the double [x], and for the nearest to [x] when
    there are two. With [n] the number of digits of [x], the decimals of
    [k] significant digits next to [x] are the two multiples of
    [10^(n-k)] around it. *)
Fixpoint shortest_from (x : N) (n k fuel : nat) : N :=
  match fuel with
  | O => x
  | S fuel' =>
      let unit := (10 ^ N.of_nat (n - k))%N in
      let low := (x / unit * unit)%N in
      let high := (low + unit)%N in
      let low_ok := bool_decide (nearest_double low = Whole x) in
      let high_ok := bool_decide (nearest_double high = Whole x) in
      if low_ok && high_ok then
        if (x - low <? high - x)%N then low
        else if (high - x <? x - low)%N then high
        else if N.even (x / unit) then low else high
      else if low_ok then low
      else if high_ok then high
      else shortest_from x n (S k) fuel'
  end.

(** Seventeen significant digits tell any two doubles apart. *)
Definition shortest (x : N) : N :=
  shortest_from x (String.length (pretty x)) 1 17.

(** The digits without the zeros at the end. *)
Fixpoint strip_zeros (s : string) : string :=
  match s with
  | String c s' =>
      match strip_zeros s' with
      | EmptyString => if decide (c = "0"%char) then EmptyString
                       else String c EmptyString
      | t => String c t
      end
  | EmptyString => EmptyString
  end.

(** [String(x)] for a whole [x] that is not negative: the digits of [x]
    up to 2^53, where every integer is a double; the shortest decimal
    beyond, with its zeros up to 21 digits and as [d.ddde+n] for more. *)
Definition natural_to_string (x : N) : string :=
  if (x <=? 2 ^ 53)%N then pretty x
  else
    let str := pretty (shortest x) in
    let n := String.length str in
    if (n <=? 21)%nat then str
    else
      match strip_zeros str with
      | String d EmptyString =>
          String d EmptyString +:+ "e+" +:+ pretty (n - 1)%nat
      | String d ds => String d ("." +:+ ds) +:+ "e+" +:+ pretty (n - 1)%nat
      | EmptyString => str
      end.

(** [String(x)], as in a template literal or a property key. *)
Definition num_to_string (x : number) : string :=
  match x with
  | Int z =>
      if decide (Z.abs z ≤ 2 ^ 53) then pretty z
      else (if decide (z < 0) then "-" else "") +:+ natural_to_string (Z.abs_N z)
  | Frac _ txt => txt
  | NaN => "NaN"
  | Inf neg => if neg then "-Infinity" else "Infinity"
  end.

(** [arr[x]]: an element for an integer index within the array, and
    [undefined] for every other number. *)
Definition index {A} (arr : list A) (x : number) : option A :=
  match x with
  | Int z => if decide (0 ≤ z) then arr !! Z.to_nat z else None
  | _ => None
  end.

(** The object [arr[x]] changed in place by [f], when there is one. *)
Definition modify {A} (arr : list A) (x : number) (f : A → A) : list A :=
  match x with
  | Int z => if decide (0 ≤ z) then alter f (Z.to_nat z) arr else arr
  | _ => arr
  end.

(** ** Characters and strings *)

Module Js.

(** The double quote, for the template literals that print one. *)
Definition dquote : string := String (ascii_of_nat 34) "".

(** [\d] of a regular expression. *)
Definition is_digit (c : ascii) : bool :=
  let n := nat_of_ascii c in (48 <=? n)%nat && (n <=? 57)%nat.

(** White space as [String.prototype.trim] and [\s] see it, for code
    points below 256: TAB, LF, VT, FF, CR, SP and NBSP. *)
Definition is_space (c : ascii) : bool :=
  let n := nat_of_ascii c in
  ((9 <=? n)%nat && (n <=? 13)%nat) || (n =? 32)%nat || (n =? 160)%nat.

Fixpoint trimStart (s : string) : string :=
  match s with
  | String c s' => if is_space c then trimStart s' else s
  | EmptyString => EmptyString
  end.

Fixpoint trimEnd (s : string) : string :=
  match s with
  | String c s' =>
      match trimEnd s' with
      | EmptyString => if is_space c then EmptyString else String c EmptyString
      | t => String c t
      end
  | EmptyString => EmptyString
  end.

(** [s.trim()] *)
Definition trim (s : string) : string := trimEnd (trimStart s).

(** [c.toLowerCase()] for one character below 256: the letters A-Z and
    the accented capitals U+00C0-U+00DE (but the sign U+00D7). *)
Definition lower_char (c : ascii) : ascii :=
  let n := nat_of_ascii c in
  if ((65 <=? n)%nat && (n <=? 90)%nat)
     || ((192 <=? n)%nat && (n <=? 222)%nat && negb (n =? 215)%nat)
  then ascii_of_nat (n + 32) else c.

(** [s.toLowerCase()] *)
Fixpoint toLowerCase (s : string) : string :=
  match s with
  | String c s' => String (lower_char c) (toLowerCase s')
  | EmptyString => EmptyString
  end.

(** [s.split(sep)] for a separator of one character: never empty, the
    empty string gives one empty piece. *)
Fixpoint split (sep : ascii) (s : string) : list string :=
  match s with
  | EmptyString => [EmptyString]
  | String c s' =>
      if decide (c = sep) then EmptyString :: split sep s'
      else match split sep s' with
           | t :: ts => String c t :: ts
           | [] => [String c EmptyString]
           end
  end.

(** [s.includes(c)] for one character. *)
Fixpoint includes (c : ascii) (s : string) : bool :=
  match s with
  | String d s' => if decide (d = c) then true else includes c s'
  | EmptyString => false
  end.

(** The longest prefix of characters of a class, and what is left: the
    greedy match of [\d+], [\d*] or [\s*]. *)
Fixpoint span (p : ascii → bool) (s : string) : string * string :=
  match s with
  | String c s' =>
      if p c then let (a, b) := span p s' in (String c a, b)
      else (EmptyString, s)
  | EmptyString => (EmptyString, EmptyString)
  end.

(** The value of a digit character. *)
Definition digit_value (c : ascii) : N := (N.of_nat (nat_of_ascii c) - 48)%N.

(** The integer that the leading digits of [s] denote, most significant
    digit first, after the digits read so far. *)
Fixpoint parseInt_from (acc : N) (s : string) : N :=
  match s with
  | String c s' =>
      if is_digit c then parseInt_from (10 * acc + digit_value c)%N s' else acc
  | EmptyString => acc
  end.

(** [parseInt(s, 10)] for a string that begins with a digit or is empty,
    as the groups [\d+] of a match are: the double nearest to the integer
    of the leading digits, and NaN without a digit. *)
Definition parseInt (s : string) : whole :=
  match s with
  | String c _ =>
      if is_digit c then nearest_double (parseInt_from 0%N s) else WNaN
  | EmptyString => WNaN
  end.

End Js.

(** ** Results of a call that may throw *)

Inductive res (E A : Type) : Type :=
| Ok (a : A)
| Throw (e : E).
Arguments Ok {E A} a.
Arguments Throw {E A} e.

Definition bind {E A B} (m : res E A) (k : A → res E B) : res E B :=
  match m with
  | Ok a => k a
  | Throw e => Throw e
  end.

(** ** The data model of join-pdf.ts *)

(** [page?: number | string] *)
Inductive PageSpec : Type :=
| PNum (n : number)
| PStr (s : string).

(** [interface JoinItem]: each field may be absent. *)
Record JoinItem : Type := mkJoinItem {
  pdf : option number;
  page : option PageSpec;
  blank : option bool
}.

(** [if (item.blank)] *)
Definition truthy (b : option bool) : bool :=
  match b with
  | Some true => true
  | _ => false
  end.

(** ** parsePages *)

(** [/^(\d+)\s*-\s*(\d+)$/.exec(s)]: the two groups of a match. The
    classes [\d], [\s] and the hyphen are disjoint, so the greedy scan
    finds the only possible match. *)
Definition exec_range (s : string) : option (string * string) :=
  let (g1, r1) := Js.span Js.is_digit s in
  if decide (g1 = "") then None else
  let (_, r2) := Js.span Js.is_space r1 in
  match r2 with
  | String "-" r3 =>
      let (_, r4) := Js.span Js.is_space r3 in
      let (g2, r5) := Js.span Js.is_digit r4 in
      if decide (g2 = "") then None
      else if decide (r5 = "") then Some (g1, g2) else None
  | _ => None
  end.

(** What [parsePages] throws: one of its two [Error]s, with its
    message, or the [RangeError] of [pages.push] on an array that can
    grow no more. *)
Inductive parse_exn : Type :=
| ParseError (message : string)
| ArrayLengthError.

(** [(err as Error).message] *)
Definition message (err : parse_exn) : string :=
  match err with
  | ParseError message => message
  | ArrayLengthError => "Invalid array length"
  end.

(** The greatest length of an array. *)
Definition max_array_length : Z := 4294967295.

(** A bound on the turns that the loop below still takes: the room left
    in the array, and the numbers left up to [e] where the counter is
    exact. It serves the termination of [pages_loop] only. *)
Definition turns_left (p e : whole) (pages : list number) : nat :=
  Z.to_nat
    (let room := max_array_length - Z.of_nat (length pages) in
     match p, e with
     | Whole a, Whole b =>
         if (b <? 2 ^ 53)%N then Z.min room (Z.of_N b + 1 - Z.of_N a)
         else room
     | _, _ => room
     end).

(** [for (let p = start; p <= end; p++) pages.push(p)] *)
Equations? pages_loop (p e : whole) (pages : list number)
  : res parse_exn (list number) by wf (turns_left p e pages) lt :=
  pages_loop p e pages with decide (whole_le p e = true) => {
    | right _ := Ok pages;
    | left Hle with decide (Z.of_nat (length pages) < max_array_length) => {
        | left _ := pages_loop (incr p) e (pages ++ [to_number p]);
        | right _ := Throw ArrayLengthError } }.
Proof.
  unfold turns_left. rewrite length_app. simpl length.
  destruct p as [a| |], e as [b| |]; try done;
    try (cbn [incr]; repeat case_match; lia).
  cbn [incr whole_le] in *. apply bool_decide_eq_true in Hle.
  destruct (N.ltb_spec b (2 ^ 53)%N) as [Hb|Hb].
  - unfold nearest_double.
    destruct (N.leb_spec (a + 1) (2 ^ 53)%N) as [Ha|Ha]; [| lia].
    destruct (N.ltb_spec b (2 ^ 53)%N); lia.
  - repeat case_match; lia.
Qed.

Definition parsePages (page : PageSpec) : res parse_exn (list number) :=
  match page with
  | PNum n => Ok [n]
  | PStr page =>
      match exec_range (Js.trim page) with
      | None =>
          Throw (ParseError ("Invalid page range format: " +:+ Js.dquote
                             +:+ page +:+ Js.dquote))
      | Some (g1, g2) =>
          let start := Js.parseInt g1 in
          let end_ := Js.parseInt g2 in
          if whole_gt start end_ then
            Throw (ParseError ("Invalid range: start > end (" +:+ page
                               +:+ ")"))
          else pages_loop start end_ []
      end
  end.

(** ** join *)

(** What [join] throws: an [Error] with its message, the [RangeError]
    that comes out of [parsePages], the [Error] for a missing page, whose
    message ends in [JSON.stringify(item)], and the [TypeError] of a
    property read from [undefined]. *)
Inductive exn : Type :=
| Error (message : string)
| RangeError (message : string)
| MissingPage (item : JoinItem)
| TypeError.

(** An exception of [parsePages] as it leaves [join]. *)
Definition rethrown (err : parse_exn) : exn :=
  match err with
  | ParseError message => Error message
  | ArrayLengthError => RangeError "Invalid array length"
  end.

(** A loaded source document, as far as [join] asks it: [getPages()]
    has [getPageCount()] elements. *)
Record PDFDocument : Type := mkPDFDocument { getPageCount : Z }.

(** A page of the output document: the blank page of [outPdf.addPage()],
    or the copy of page [pageNum] (index [pageNum - 1]) of source [src]. *)
Inductive Page : Type :=
| BlankPage
| CopiedPage (src : number) (pageNum : number).

Definition out_of_range_message (pageNum pdfIndex : number) (totalPages : Z)
  : string :=
  "joinList requests page " +:+ num_to_string pageNum +:+ " from pdf["
  +:+ num_to_string pdfIndex +:+ "] which has only " +:+ pretty totalPages
  +:+ " pages".

(** [pageNum < 1 || pageNum > total], the bounds check of both loops. *)
Definition out_of_range (pageNum : number) (total : Z) : bool :=
  num_lt pageNum 1 || num_gt pageNum total.

(** [for (const pageNum of pagesToCopy) { ... }]. A page number that
    passes the bounds check is copied when it is an integer;
    [outPdf.copyPages(srcPdf, [pageNum - 1])] reads [.node] of
    [srcPages[pageNum - 1]], which is [undefined] for any other. *)
Fixpoint copy_pages (pdfIndex : number) (totalPages : Z)
    (pagesToCopy : list number) (outPdf : list Page) : res exn (list Page) :=
  match pagesToCopy with
  | [] => Ok outPdf
  | pageNum :: rest =>
      if out_of_range pageNum totalPages then
        Throw (Error (out_of_range_message pageNum pdfIndex totalPages))
      else
        match pageNum with
        | Int _ =>
            copy_pages pdfIndex totalPages rest
              (outPdf ++ [CopiedPage pdfIndex pageNum])
        | _ => Throw TypeError
        end
  end.

(** The body of [for (const item of joinList) { ... }]. *)
Definition join_item (loadedPdfs : list PDFDocument) (item : JoinItem)
    (outPdf : list Page) : res exn (list Page) :=
  if truthy (blank item) then Ok (outPdf ++ [BlankPage])
  else
    match pdf item with
    | None =>
        Throw (Error "Invalid joinList entry: missing or invalid 'pdf' index")
    | Some pdfIndex =>
        if num_lt pdfIndex 0 then
          Throw (Error "Invalid joinList entry: missing or invalid 'pdf' index")
        else
          match page item with
          | None => Throw (MissingPage item)
          | Some pg =>
              match index loadedPdfs pdfIndex with
              | None => Throw TypeError
              | Some srcPdf =>
                  let totalPages := getPageCount srcPdf in
                  match parsePages pg with
                  | Throw err => Throw (rethrown err)
                  | Ok pagesToCopy =>
                      copy_pages pdfIndex totalPages pagesToCopy outPdf
                  end
              end
          end
    end.

Fixpoint join_loop (loadedPdfs : list PDFDocument) (joinList : list JoinItem)
    (outPdf : list Page) : res exn (list Page) :=
  match joinList with
  | [] => Ok outPdf
  | item :: rest =>
      bind (join_item loadedPdfs item outPdf) (join_loop loadedPdfs rest)
  end.

(** [outPdf.save()]: the pages of the document that the bytes hold. A
    document without pages is saved with one blank page. *)
Definition save (outPdf : list Page) : list Page :=
  match outPdf with
  | [] => [BlankPage]
  | _ => outPdf
  end.

(** [join(pdfs, joinList)] once the sources are loaded. *)
Definition join (loadedPdfs : list PDFDocument) (joinList : list JoinItem)
  : res exn (list Page) :=
  bind (join_loop loadedPdfs joinList []) (λ outPdf, Ok (save outPdf)).

(** ** testList *)

(** [interface PdfInfo], an entry of what [listPdfs] returns. *)
Record PdfInfo : Type := mkPdfInfo { file : string; pages : Z }.

(** An entry of [TestResult.usage]; [usedPages] is an object, keyed by
    the property names of the page numbers. *)
Record Usage : Type := mkUsage {
  usage_file : string;
  totalPages : Z;
  usedPages : gmap string Z
}.

Record TestResult : Type := mkTestResult {
  errors : list string;
  usage : list Usage
}.

(** [result.errors.push(message)] *)
Definition push_error (result : TestResult) (message : string) : TestResult :=
  mkTestResult (errors result ++ [message]) (usage result).

(** [usageMap[pageNum] = (usageMap[pageNum] || 0) + 1] *)
Definition count_page (pageNum : number) (u : Usage) : Usage :=
  let key := num_to_string pageNum in
  mkUsage (usage_file u) (totalPages u)
    (<[key := default 0 (usedPages u !! key) + 1]> (usedPages u)).

Definition entry_prefix (i : nat) : string := "Entry #" +:+ pretty i +:+ ": ".

Definition no_page_message (i : nat) (pdfIndex pageNum : number) (total : Z)
  : string :=
  entry_prefix i +:+ "pdf[" +:+ num_to_string pdfIndex +:+ "] has no page "
  +:+ num_to_string pageNum +:+ " (max " +:+ pretty total +:+ ")".

(** [for (const pageNum of pages) { ... }]: [usage[pdfIndex]] is read
    only for a page number that passed the bounds check. *)
Fixpoint check_pages (i : nat) (pdfIndex : number) (total : Z)
    (pages : list number) (result : TestResult) : res exn TestResult :=
  match pages with
  | [] => Ok result
  | pageNum :: rest =>
      if out_of_range pageNum total then
        check_pages i pdfIndex total rest
          (push_error result (no_page_message i pdfIndex pageNum total))
      else
        match index (usage result) pdfIndex with
        | None => Throw TypeError
        | Some _ =>
            check_pages i pdfIndex total rest
              (mkTestResult (errors result)
                 (modify (usage result) pdfIndex (count_page pageNum)))
        end
  end.

(** [info[pdfIndex]?.pages ?? 0] *)
Definition total_of (info : list PdfInfo) (pdfIndex : number) : Z :=
  match index info pdfIndex with
  | Some d => pages d
  | None => 0
  end.

(** The callback of [joinList.forEach((item, i) => { ... })]. *)
Definition test_item (info : list PdfInfo) (i : nat) (item : JoinItem)
    (result : TestResult) : res exn TestResult :=
  if truthy (blank item) then Ok result
  else
    match pdf item with
    | None =>
        Ok (push_error result
              (entry_prefix i +:+ "invalid or missing 'pdf' index"))
    | Some pdfIndex =>
        if num_lt pdfIndex 0 then
          Ok (push_error result
                (entry_prefix i +:+ "invalid or missing 'pdf' index"))
        else
          match page item with
          | None =>
              Ok (push_error result (entry_prefix i +:+ "missing 'page' value"))
          | Some pg =>
              let total := total_of info pdfIndex in
              match parsePages pg with
              | Throw err =>
                  Ok (push_error result (entry_prefix i +:+ message err))
              | Ok pages => check_pages i pdfIndex total pages result
              end
          end
    end.

Fixpoint forEach (info : list PdfInfo) (i : nat) (joinList : list JoinItem)
    (result : TestResult) : res exn TestResult :=
  match joinList with
  | [] => Ok result
  | item :: rest =>
      bind (test_item info i item result) (forEach info (S i) rest)
  end.

(** The result before the first entry: no error, and one usage record
    per source, nothing used. *)
Definition initial_result (info : list PdfInfo) : TestResult :=
  mkTestResult []
    ((λ d, mkUsage (file d) (pages d) ∅) <$> info).

(** [testList(pdfs, joinList)], given [info = await listPdfs(pdfs)]. *)
Definition testList (info : list PdfInfo) (joinList : list JoinItem)
  : res exn TestResult :=
  forEach info 0 joinList (initial_result info).

(** ** parsePagesArg (cli.ts) *)

(** [/^(\d+):([\d]+(?:-[\d]+)?)$/.exec(token)]: the two groups. *)
Definition exec_token (token : string) : option (string * string) :=
  let (g1, r1) := Js.span Js.is_digit token in
  if decide (g1 = "") then None else
  match r1 with
  | String ":" r2 =>
      let (d1, r3) := Js.span Js.is_digit r2 in
      if decide (d1 = "") then None else
      match r3 with
      | EmptyString => Some (g1, d1)
      | String "-" r4 =>
          let (d2, r5) := Js.span Js.is_digit r4 in
          if decide (d2 = "") then None
          else if decide (r5 = "") then Some (g1, d1 +:+ "-" +:+ d2)
          else None
      | _ => None
      end
  | _ => None
  end.

Definition invalid_token_message (token : string) : string :=
  "Invalid --pages token " +:+ Js.dquote +:+ token +:+ Js.dquote
  +:+ ". Use format " +:+ Js.dquote +:+ "pdfIndex:page" +:+ Js.dquote
  +:+ " or " +:+ Js.dquote +:+ "pdfIndex:start-end" +:+ Js.dquote
  +:+ " or " +:+ Js.dquote +:+ "blank" +:+ Js.dquote +:+ ".".

Definition blank_item : JoinItem := mkJoinItem None None (Some true).

(** [for (const token of tokens) { ... }] *)
Fixpoint parse_tokens (tokens : list string) (items : list JoinItem)
  : res string (list JoinItem) :=
  match tokens with
  | [] => Ok items
  | token :: rest =>
      if bool_decide (token = "")
         || bool_decide (Js.toLowerCase token = "blank")
      then parse_tokens rest (items ++ [blank_item])
      else
        match exec_token token with
        | None => Throw (invalid_token_message token)
        | Some (g1, g2) =>
            let pdf := to_number (Js.parseInt g1) in
            let page :=
              if Js.includes "-" g2 then PStr g2
              else PNum (to_number (Js.parseInt g2)) in
            parse_tokens rest
              (items ++ [mkJoinItem (Some pdf) (Some page) None])
        end
  end.

Definition parsePagesArg (arg : string) : res string (list JoinItem) :=
  parse_tokens (Js.trim <$> Js.split "," arg) [].

(** What one token decodes to, as the body of the loop of
    [parsePagesArg] decides it. *)
Definition token_result (token : string) : res string JoinItem :=
  if bool_decide (token = "") || bool_decide (Js.toLowerCase token = "blank")
  then Ok blank_item
  else
    match exec_token token with
    | None => Throw (invalid_token_message token)
    | Some (g1, g2) =>
        Ok (mkJoinItem (Some (to_number (Js.parseInt g1)))
              (Some (if Js.includes "-" g2 then PStr g2
                     else PNum (to_number (Js.parseInt g2))))
              None)
    end.

(** ** Notions of the specification *)

(** A page number within [1, total]. *)
Definition in_range (p : number) (total : Z) : bool :=
  match p with
  | Int z => bool_decide (1 ≤ z ≤ total)
  | Frac fl _ => bool_decide (1 ≤ fl < total)
  | NaN | Inf _ => false
  end.

(** An entry that passes every check of the assembler: a blank marker,
    or a reference with a non-negative [pdf] that names a loaded source,
    a [page] that parses, and no page number refused by the bounds check. *)
Definition passes_checks (loadedPdfs : list PDFDocument) (item : JoinItem)
  : bool :=
  truthy (blank item)
  || match pdf item, page item with
     | Some pdfIndex, Some pg =>
         negb (num_lt pdfIndex 0)
         && match index loadedPdfs pdfIndex, parsePages pg with
            | Some srcPdf, Ok ps =>
                forallb (λ p, negb (out_of_range p (getPageCount srcPdf))) ps
            | _, _ => false
            end
     | _, _ => false
     end.

(** The pages an entry stands for: one blank page for a blank marker,
    one copy per resolved page number of a page reference, in order. *)
Definition item_pages (item : JoinItem) : list Page :=
  if truthy (blank item) then [BlankPage]
  else
    match pdf item, page item with
    | Some pdfIndex, Some pg =>
        match parsePages pg with
        | Ok ps => CopiedPage pdfIndex <$> ps
        | Throw _ => []
        end
    | _, _ => []
    end.


(** Strings of one class of characters. *)
Fixpoint all_chars (p : ascii → bool) (s : string) : bool :=
  match s with
  | String c s' => p c && all_chars p s'
  | EmptyString => true
  end.

(** [s] does not begin with a character of the class. *)
Definition stops (p : ascii → bool) (s : string) : bool :=
  match s with
  | String c _ => negb (p c)
  | EmptyString => true
  end.

(** A non-empty string of digits, what [\d+] matches. *)
Definition digits (s : string) : Prop :=
  all_chars Js.is_digit s = true ∧ s ≠ "".

(** The word [blank], each letter in either case. *)
Definition blank_word (t : string) : Prop :=
  ∃ c1 c2 c3 c4 c5 : ascii,
    t = String c1 (String c2 (String c3 (String c4 (String c5 ""))))
    ∧ (c1 = "b" ∨ c1 = "B")%char ∧ (c2 = "l" ∨ c2 = "L")%char
    ∧ (c3 = "a" ∨ c3 = "A")%char ∧ (c4 = "n" ∨ c4 = "N")%char
    ∧ (c5 = "k" ∨ c5 = "K")%char.

(** The integer that a string of digits denotes: each digit counts for
    the power of ten of its place. *)
Fixpoint decimal (d : string) : N :=
  match d with
  | String c d' =>
      ((N.of_nat (nat_of_ascii c) - 48) * 10 ^ N.of_nat (String.length d')
       + decimal d')%N
  | EmptyString => 0%N
  end.

(** An integer as a JavaScript number holds it. *)
Definition as_double (n : N) : number := to_number (nearest_double n).

(** The item a trimmed token of the inline notation stands for, in the
    words of the specification: the empty token and the word [blank] are
    a blank item; [pdf:page] and [pdf:start-end], of non-empty digit
    strings, are a page reference whose [pdf] is the integer before the
    colon and whose [page] is the integer after it, or the range string;
    the integers are held as JavaScript numbers. *)
Inductive token_item : string → JoinItem → Prop :=
| token_empty : token_item "" (mkJoinItem None None (Some true))
| token_blank t :
    blank_word t → token_item t (mkJoinItem None None (Some true))
| token_page d1 d2 :
    digits d1 → digits d2 →
    token_item (d1 +:+ ":" +:+ d2)
      (mkJoinItem (Some (as_double (decimal d1)))
         (Some (PNum (as_double (decimal d2)))) None)
| token_range d1 d2 d3 :
    digits d1 → digits d2 → digits d3 →
    token_item (d1 +:+ ":" +:+ d2 +:+ "-" +:+ d3)
      (mkJoinItem (Some (as_double (decimal d1)))
         (Some (PStr (d2 +:+ "-" +:+ d3))) None).


(** ** Regular expressions *)

(** The regular expressions of the source, without their groups, and
    the strings they match from [^] to [$]. *)
Inductive regex : Type :=
| Eps
| Class (p : ascii → bool)
| Seq (r1 r2 : regex)
| Alt (r1 r2 : regex)
| Star (r : regex).

Inductive matches : regex → string → Prop :=
| matches_eps : matches Eps ""
| matches_class p c : p c = true → matches (Class p) (String c "")
| matches_seq r1 r2 s1 s2 :
    matches r1 s1 → matches r2 s2 → matches (Seq r1 r2) (s1 +:+ s2)
| matches_alt_l r1 r2 s : matches r1 s → matches (Alt r1 r2) s
| matches_alt_r r1 r2 s : matches r2 s → matches (Alt r1 r2) s
| matches_star_nil r : matches (Star r) ""
| matches_star_cons r s1 s2 :
    matches r s1 → matches (Star r) s2 → matches (Star r) (s1 +:+ s2).

(** [c], [r+] and [r?] *)
Definition Chr (c : ascii) : regex := Class (λ d, bool_decide (d = c)).
Definition Plus (r : regex) : regex := Seq r (Star r).
Definition Opt (r : regex) : regex := Alt r Eps.

(** [\d+], the two groups of [/^(\d+)\s*-\s*(\d+)$/] and the first of
    [/^(\d+):([\d]+(?:-[\d]+)?)$/]. *)
Definition re_digits : regex := Plus (Class Js.is_digit).

(** [\s*] *)
Definition re_spaces : regex := Star (Class Js.is_space).

(** [[\d]+(?:-[\d]+)?], the second group of the token's expression. *)
Definition re_page : regex :=
  Seq re_digits (Opt (Seq (Chr "-") re_digits)).

(** ** The usage histogram, in the words of the specification *)

(** The resolved page numbers of an entry that count for the document at
    index [d]: those of a well-formed reference to [d] that the bounds
    check lets through, duplicates and range expansions included. *)
Definition counted_pages (info : list PdfInfo) (d : nat) (item : JoinItem)
  : list number :=
  if truthy (blank item) then []
  else
    match pdf item, page item with
    | Some pdfIndex, Some pg =>
        if num_lt pdfIndex 0 then []
        else
          match parsePages pg with
          | Ok ps =>
              if decide (pdfIndex = Int (Z.of_nat d)) then
                filter (λ p, out_of_range p (total_of info pdfIndex) = false) ps
              else []
          | Throw _ => []
          end
    | _, _ => []
    end.

(** How many of the page numbers have the property key [key]. *)
Definition occurrences (key : string) (ps : list number) : Z :=
  Z.of_nat (length (filter (λ p, num_to_string p = key) ps)).

(** The entry of a usage map for a key referred to [n] times: absent
    for no reference, the count otherwise. *)
Definition count_entry (n : Z) : option Z :=
  if decide (n = 0) then None else Some n.

(** ** Examples and messages used in the statements *)

(** The join list of the README and of the specification's examples. *)
Definition example_joinList : list JoinItem :=
  [ mkJoinItem (Some (Int 0)) (Some (PNum (Int 1))) None;
    mkJoinItem None None (Some true);
    mkJoinItem (Some (Int 1)) (Some (PStr "2-4")) None;
    mkJoinItem (Some (Int 0)) (Some (PNum (Int 5))) None ].

(** Two loaded sources, of 12 and of 7 pages. *)
Definition example_pdfs : list PDFDocument :=
  [mkPDFDocument 12; mkPDFDocument 7].

(** What [listPdfs] returns for them. *)
Definition example_info : list PdfInfo :=
  [mkPdfInfo "a.pdf" 12; mkPdfInfo "b.pdf" 7].

(** The error of a missing or negative [pdf]. *)
Definition invalid_pdf_message (i : nat) : string :=
  "Entry #" +:+ pretty i +:+ ": invalid or missing 'pdf' index".

(** One error per page number that a source of [total] pages lacks. *)
Definition no_page_messages (i : nat) (pdfIndex : number) (total : Z)
    (ps : list number) : list string :=
  (λ p, no_page_message i pdfIndex p total) <$> ps.

(** The usage record of the document at [d] after the page numbers [l]
    were counted for it. *)
Definition records (f : PdfInfo) (d : nat) (l : list number)
    (result : TestResult) : Prop :=
  ∃ u, usage result !! d = Some u
       ∧ usage_file u = file f ∧ totalPages u = pages f
       ∧ ∀ key, usedPages u !! key = count_entry (occurrences key l).

(** * The rest of the code *)

(** ** Loading the sources: listPdfs, and the first loop of join *)

Section Loading.

(** [PDFDocument.load(await fs.readFile(file))]: the document in a
    file, or what reading or parsing the file throws. *)
Variable load : string → res exn PDFDocument.

(** [for (const file of pdfs) { ...; result.push({ file, pages }) }] *)
Fixpoint listPdfs_loop (pdfs : list string) (result : list PdfInfo)
  : res exn (list PdfInfo) :=
  match pdfs with
  | [] => Ok result
  | file :: rest =>
      bind (load file)
        (λ pdfDoc,
           listPdfs_loop rest
             (result ++ [mkPdfInfo file (getPageCount pdfDoc)]))
  end.

Definition listPdfs (pdfs : list string) : res exn (list PdfInfo) :=
  listPdfs_loop pdfs [].

(** [for (const file of pdfs) { ...; loadedPdfs.push(pdfDoc) }] *)
Fixpoint load_loop (pdfs : list string) (loadedPdfs : list PDFDocument)
  : res exn (list PDFDocument) :=
  match pdfs with
  | [] => Ok loadedPdfs
  | file :: rest =>
      bind (load file) (λ pdfDoc, load_loop rest (loadedPdfs ++ [pdfDoc]))
  end.

(** [join(pdfs, joinList)], from the file names. *)
Definition join_pdfs (pdfs : list string) (joinList : list JoinItem)
  : res exn (list Page) :=
  bind (load_loop pdfs []) (λ loadedPdfs, join loadedPdfs joinList).

(** [pdfs.map((file, idx) => ({ file, totalPages: info[idx].pages,
    usedPages: {} }))], from index [idx] on. *)
Fixpoint usage_from (info : list PdfInfo) (idx : nat) (pdfs : list string)
  : res exn (list Usage) :=
  match pdfs with
  | [] => Ok []
  | file :: rest =>
      match info !! idx with
      | None => Throw TypeError
      | Some d =>
          bind (usage_from info (S idx) rest)
            (λ records, Ok (mkUsage file (pages d) ∅ :: records))
      end
  end.

(** [testList(pdfs, joinList)], from the file names. *)
Definition testList_pdfs (pdfs : list string) (joinList : list JoinItem)
  : res exn TestResult :=
  bind (listPdfs pdfs)
    (λ info,
       bind (usage_from info 0 pdfs)
         (λ records, forEach info 0 joinList (mkTestResult [] records))).

End Loading.

(** ** The commands of cli.ts: where the join list comes from *)

(** A string option of the command line is taken as given when it is
    there and not empty: [if (options.join)]. *)
Definition given (o : option string) : bool :=
  match o with
  | Some s => negb (bool_decide (s = ""))
  | None => false
  end.

(** What the command goes on with: the file to read as JSON, or the
    join list decoded from [--pages]. *)
Inductive JoinData : Type :=
| FromFile (path : string)
| FromPages (items : list JoinItem).

(** The choice between [--join] and [--pages] of the [validate] and
    [join] commands; the strings thrown are the messages of the errors. *)
Definition join_data (join_opt pages_opt : option string)
  : res string JoinData :=
  if given join_opt && given pages_opt then
    Throw "Use either --join or --pages, not both."
  else if given join_opt then Ok (FromFile (default "" join_opt))
  else if given pages_opt then
    match parsePagesArg (default "" pages_opt) with
    | Ok items => Ok (FromPages items)
    | Throw message => Throw message
    end
  else Throw "You must specify either --join <file> or --pages <definition>".

(** ** Notions used in the further properties *)

(** The pages of a first document, then those of a second, for two
    assemblies one after the other. *)
Definition append_pages (first second : res exn (list Page))
  : res exn (list Page) :=
  bind first (λ o1, bind second (λ o2, Ok (o1 ++ o2))).

(** An entry on which the callback of [testList] throws: a page
    reference whose [page] is the number NaN and whose [pdf] is a number,
    not negative, that is no index of a source. *)
Definition crashes (info : list PdfInfo) (item : JoinItem) : bool :=
  negb (truthy (blank item))
  && match pdf item, page item with
     | Some pdfIndex, Some (PNum NaN) =>
         negb (num_lt pdfIndex 0)
         && match index info pdfIndex with
            | None => true
            | Some _ => false
            end
     | _, _ => false
     end.

(** The errors that the entry at position [i] adds: none for a blank
    marker, one for a missing or negative [pdf], a missing [page] or a
    page specification that does not parse, and otherwise one per
    resolved page number that the bounds check refuses, in their order. *)
Definition entry_errors (info : list PdfInfo) (i : nat) (item : JoinItem)
  : list string :=
  if truthy (blank item) then []
  else
    match pdf item with
    | None => [invalid_pdf_message i]
    | Some pdfIndex =>
        if num_lt pdfIndex 0 then [invalid_pdf_message i]
        else
          match page item with
          | None => ["Entry #" +:+ pretty i +:+ ": missing 'page' value"]
          | Some pg =>
              match parsePages pg with
              | Throw err => ["Entry #" +:+ pretty i +:+ ": " +:+ message err]
              | Ok ps =>
                  no_page_messages i pdfIndex (total_of info pdfIndex)
                    (filter (λ p, out_of_range p (total_of info pdfIndex) = true)
                       ps)
              end
          end
    end.

(** The loaded documents and the inventory are of the same files: the
    same page counts in the same order. *)
Definition same_pages (loadedPdfs : list PDFDocument) (info : list PdfInfo)
  : Prop :=
  getPageCount <$> loadedPdfs = pages <$> info.

(** An output page that is a copy from source [d] of a page whose number
    has the property key [key]. *)
Definition is_copy (d : nat) (key : string) (pg : Page) : bool :=
  match pg with
  | CopiedPage src p =>
      bool_decide (src = Int (Z.of_nat d))
      && bool_decide (num_to_string p = key)
  | BlankPage => false
  end.

(** How many such pages an output document has. *)
Definition copies (d : nat) (key : string) (outPdf : list Page) : Z :=
  Z.of_nat (length (filter (λ pg, is_copy d key pg = true) outPdf)).

(** A folder for the examples: [a.pdf] of 12 pages, [b.pdf] of 7, and
    nothing else that can be read. *)
Definition example_load (file : string) : res exn PDFDocument :=
  if bool_decide (file = "a.pdf") then Ok (mkPDFDocument 12)
  else if bool_decide (file = "b.pdf") then Ok (mkPDFDocument 7)
  else Throw (Error ("ENOENT: no such file or directory, open '" +:+ file
                     +:+ "'")).

(** The inventory entries of files and their documents. *)
Definition infos (pdfs : list string) (docs : list PDFDocument)
  : list PdfInfo :=
  zip_with (λ file doc, mkPdfInfo file (getPageCount doc)) pdfs docs.


(** How often a character occurs in a string. *)
Fixpoint count_char (c : ascii) (s : string) : nat :=
  match s with
  | String d s' => (if decide (d = c) then 1 else 0) + count_char c s'
  | EmptyString => 0
  end.





(** A number that [parseInt] can return for a string of digits: an
    integer that is not negative, or [Infinity]. *)
Definition whole_number (n : number) : Prop :=
  (∃ a, n = Int a ∧ 0 ≤ a) ∨ n = Inf false.

(** An entry as [parsePagesArg] makes them: a blank marker, or a page
    reference whose [pdf] is a whole number and whose [page] is a whole
    number or a string of two digit strings with a hyphen between. *)
Definition decoded_item (item : JoinItem) : Prop :=
  item = mkJoinItem None None (Some true)
  ∨ ∃ n pg,
      item = mkJoinItem (Some n) (Some pg) None ∧ whole_number n
      ∧ ((∃ m, pg = PNum m ∧ whole_number m)
         ∨ ∃ d2 d3, pg = PStr (d2 +:+ "-" +:+ d3) ∧ digits d2 ∧ digits d3).


(** ** Notions for the statements on white space and pieces *)




(** ** Notions for the statements on the assembler *)

(** An integer among the numbers. *)
Definition is_int (p : number) : bool :=
  match p with
  | Int _ => true
  | _ => false
  end.

(** An entry all of whose resolved page numbers are integers; a blank
    marker and an entry without page numbers are such. *)
Definition whole_pages (item : JoinItem) : bool :=
  truthy (blank item)
  || match page item with
     | Some pg =>
         match parsePages pg with
         | Ok ps => forallb is_int ps
         | Throw _ => true
         end
     | None => true
     end.

(** An entry that [join] takes: it passes the checks, and [copyPages]
    finds each of its pages. *)
Definition accepted (loadedPdfs : list PDFDocument) (item : JoinItem)
  : bool :=
  passes_checks loadedPdfs item && whole_pages item.

(** * Properties *)

(** ** Strings *)

Lemma app_nil (t : string) : "" +:+ t = t.
Proof. done. Qed.

Lemma app_cons c (s t : string) : String c s +:+ t = String c (s +:+ t).
Proof. done. Qed.

Ltac unfold_app := rewrite ?app_cons, ?app_nil in *.

Lemma app_empty_r (s : string) : s +:+ "" = s.
Proof. induction s as [|c s IH]; unfold_app; [done | by rewrite IH]. Qed.

Lemma app_assoc_str (s t u : string) : (s +:+ t) +:+ u = s +:+ (t +:+ u).
Proof. induction s as [|c s IH]; unfold_app; [done | by rewrite IH]. Qed.

Lemma all_chars_app p s t :
  all_chars p (s +:+ t) = all_chars p s && all_chars p t.
Proof.
  induction s as [|c s IH]; unfold_app; simpl; [done |].
  rewrite IH. by destruct (p c).
Qed.

Lemma span_app p s t :
  all_chars p s = true → stops p t = true → Js.span p (s +:+ t) = (s, t).
Proof.
  intros Hs Ht. induction s as [|c s IH]; unfold_app; simpl in *.
  - destruct t as [|c t]; simpl in *; [done |].
    by destruct (p c).
  - apply andb_true_iff in Hs as [Hc Hs]. rewrite Hc, (IH Hs). done.
Qed.

Lemma span_spec p s g r :
  Js.span p s = (g, r) → s = g +:+ r ∧ all_chars p g = true ∧ stops p r = true.
Proof.
  revert g r. induction s as [|c s IH]; simpl; intros g r H.
  - by inversion H.
  - destruct (p c) eqn:Hc.
    + destruct (Js.span p s) as [a b]. inversion H; subst.
      destruct (IH a r eq_refl) as (-> & Ha & Hr). simpl. by rewrite Hc, Ha.
    + inversion H; subst. simpl. by rewrite Hc.
Qed.

Lemma digit_not_space c : Js.is_digit c = true → Js.is_space c = false.
Proof.
  unfold Js.is_digit, Js.is_space. intros H.
  apply andb_true_iff in H as [H1 H2].
  apply Nat.leb_le in H1. apply Nat.leb_le in H2.
  repeat (apply orb_false_iff; split).
  - apply andb_false_iff. right. apply Nat.leb_gt. lia.
  - apply Nat.eqb_neq. lia.
  - apply Nat.eqb_neq. lia.
Qed.




(** ** Printing and reading decimal numbers *)

Lemma pretty_N_char_digit x : Js.is_digit (pretty_N_char x) = true.
Proof. unfold pretty_N_char. by repeat case_match. Qed.

Lemma pretty_N_char_value x :
  (x < 10)%N → Js.digit_value (pretty_N_char x) = x.
Proof.
  intros H.
  assert (x = 0 ∨ x = 1 ∨ x = 2 ∨ x = 3 ∨ x = 4 ∨ x = 5 ∨ x = 6 ∨ x = 7
          ∨ x = 8 ∨ x = 9)%N as Hx by lia.
  by repeat (destruct Hx as [-> | Hx]; [done |]); subst.
Qed.

Lemma pretty_N_go_app x s : pretty_N_go x s = pretty_N_go x "" +:+ s.
Proof.
  revert s. induction (N.lt_wf_0 x) as [x _ IH]; intros s.
  destruct (decide (x = 0%N)) as [-> | Hx]; [done |].
  assert (x `div` 10 < x)%N as Hlt by (apply N.div_lt; lia).
  rewrite !(pretty_N_go_step x) by lia.
  rewrite (IH _ Hlt (String _ s)), (IH _ Hlt (String _ "")).
  by rewrite app_assoc_str.
Qed.

Lemma pretty_N_go_digits x : all_chars Js.is_digit (pretty_N_go x "") = true.
Proof.
  induction (N.lt_wf_0 x) as [x _ IH].
  destruct (decide (x = 0%N)) as [-> | Hx]; [done |].
  rewrite pretty_N_go_step, pretty_N_go_app, all_chars_app by lia.
  rewrite IH by (apply N.div_lt; lia). simpl.
  by rewrite pretty_N_char_digit.
Qed.

Lemma pretty_N_digits (x : N) : all_chars Js.is_digit (pretty x) = true.
Proof.
  unfold pretty, pretty_N. case_decide; [done | apply pretty_N_go_digits].
Qed.

Lemma pretty_N_nonempty (x : N) : pretty x ≠ "".
Proof.
  unfold pretty, pretty_N. case_decide; [done |].
  rewrite pretty_N_go_step, pretty_N_go_app by lia.
  destruct (pretty_N_go _ ""); done.
Qed.

Lemma parseInt_from_app acc s t :
  all_chars Js.is_digit s = true →
  Js.parseInt_from acc (s +:+ t) = Js.parseInt_from (Js.parseInt_from acc s) t.
Proof.
  revert acc. induction s as [|c s IH]; simpl; intros acc Hs; [done |].
  apply andb_true_iff in Hs as [Hc Hs]. rewrite Hc. by apply IH.
Qed.

Lemma parseInt_pretty_N_go x :
  Js.parseInt_from 0 (pretty_N_go x "") = x.
Proof.
  induction (N.lt_wf_0 x) as [x _ IH].
  destruct (decide (x = 0%N)) as [-> | Hx]; [done |].
  rewrite pretty_N_go_step, pretty_N_go_app by lia.
  rewrite parseInt_from_app by apply pretty_N_go_digits.
  rewrite IH by (apply N.div_lt; lia). simpl.
  rewrite pretty_N_char_digit, pretty_N_char_value by (apply N.mod_lt; lia).
  rewrite (N.div_mod x 10) at 3 by lia. lia.
Qed.

Lemma parseInt_from_pretty (x : N) : Js.parseInt_from 0 (pretty x) = x.
Proof.
  unfold pretty, pretty_N.
  case_decide; [by subst | apply parseInt_pretty_N_go].
Qed.

(** ** Numbers *)



Lemma nearest_double_number n : nearest_double n ≠ WNaN.
Proof. unfold nearest_double. by repeat case_match. Qed.


(** [parseInt] of a string of digits is the double of the integer that
    the digits denote. *)
Lemma parseInt_from_decimal acc d :
  all_chars Js.is_digit d = true →
  Js.parseInt_from acc d
  = (acc * 10 ^ N.of_nat (String.length d) + decimal d)%N.
Proof.
  revert acc. induction d as [|c d IH]; intros acc Hd; simpl.
  - rewrite N.pow_0_r. lia.
  - apply andb_true_iff in Hd as [Hc Hd]. rewrite Hc, (IH _ Hd).
    unfold Js.digit_value.
    replace (N.of_nat (S (String.length d)))
      with (N.succ (N.of_nat (String.length d))) by lia.
    rewrite N.pow_succ_r'. lia.
Qed.

Lemma parseInt_digits d :
  digits d → Js.parseInt d = nearest_double (decimal d).
Proof.
  intros [Hd Hne]. destruct d as [|c d]; [done |].
  unfold Js.parseInt. pose proof Hd as Hall. simpl in Hd.
  apply andb_true_iff in Hd as [-> _].
  rewrite parseInt_from_decimal by done. f_equal; lia.
Qed.

Lemma pretty_digits (x : N) : digits (pretty x).
Proof. split; [apply pretty_N_digits | apply pretty_N_nonempty]. Qed.

Lemma decimal_pretty (x : N) : decimal (pretty x) = x.
Proof.
  pose proof (parseInt_from_decimal 0 (pretty x) (pretty_N_digits x)) as H.
  rewrite parseInt_from_pretty in H. lia.
Qed.

Lemma parseInt_pretty (x : N) : Js.parseInt (pretty x) = nearest_double x.
Proof. by rewrite parseInt_digits, decimal_pretty by apply pretty_digits. Qed.

Lemma stops_digit_space_prefix w t :
  all_chars Js.is_space w = true → stops Js.is_digit t = true →
  stops Js.is_digit (w +:+ t) = true.
Proof.
  intros Hw Ht. destruct w as [|c w]; unfold_app; [done |].
  simpl in *. apply andb_true_iff in Hw as [Hc _].
  destruct (Js.is_digit c) eqn:Hd; [| done].
  by rewrite (digit_not_space c Hd) in Hc.
Qed.

Lemma stops_space_digits d :
  all_chars Js.is_digit d = true → stops Js.is_space d = true.
Proof.
  destruct d as [|c d]; simpl; [done |]. intros H.
  apply andb_true_iff in H as [Hc _]. by rewrite (digit_not_space c Hc).
Qed.

(** The strings that [/^(\d+)\s*-\s*(\d+)$/] matches, and their groups. *)
Lemma exec_range_shape d1 w1 w2 d2 :
  all_chars Js.is_digit d1 = true → d1 ≠ "" →
  all_chars Js.is_space w1 = true → all_chars Js.is_space w2 = true →
  all_chars Js.is_digit d2 = true → d2 ≠ "" →
  exec_range (d1 +:+ w1 +:+ "-" +:+ w2 +:+ d2) = Some (d1, d2).
Proof.
  intros Hd1 Hn1 Hw1 Hw2 Hd2 Hn2. unfold exec_range.
  rewrite (span_app Js.is_digit d1) by (by try apply stops_digit_space_prefix).
  rewrite decide_False by done.
  rewrite (span_app Js.is_space w1) by done. unfold_app.
  rewrite (span_app Js.is_space w2) by (by try apply stops_space_digits).
  rewrite <- (app_empty_r d2) at 1.
  rewrite (span_app Js.is_digit d2) by done.
  by rewrite decide_False, decide_True by done.
Qed.

Lemma exec_range_inv s g1 g2 :
  exec_range s = Some (g1, g2) →
  ∃ w1 w2, s = g1 +:+ w1 +:+ "-" +:+ w2 +:+ g2
    ∧ all_chars Js.is_digit g1 = true ∧ g1 ≠ ""
    ∧ all_chars Js.is_space w1 = true ∧ all_chars Js.is_space w2 = true
    ∧ all_chars Js.is_digit g2 = true ∧ g2 ≠ "".
Proof.
  unfold exec_range. intros H.
  destruct (Js.span Js.is_digit s) as [a r1] eqn:E1.
  case_decide; [done |].
  destruct (Js.span Js.is_space r1) as [w1 r2] eqn:E2.
  destruct r2 as [|c r3]; [done |].
  destruct c as [[] [] [] [] [] [] [] []]; try done.
  destruct (Js.span Js.is_space r3) as [w2 r4] eqn:E3.
  destruct (Js.span Js.is_digit r4) as [b r5] eqn:E4.
  repeat case_decide; try done. injection H as -> ->.
  apply span_spec in E1 as (-> & Ha & _).
  apply span_spec in E2 as (-> & Hw1 & _).
  apply span_spec in E3 as (-> & Hw2 & _).
  apply span_spec in E4 as (-> & Hb & _).
  subst. exists w1, w2. unfold_app. by rewrite app_empty_r.
Qed.

(** ** The loop of parsePages *)

Lemma pages_loop_step p e pages :
  pages_loop p e pages
  = if whole_le p e then
      if decide (Z.of_nat (length pages) < max_array_length) then
        pages_loop (incr p) e (pages ++ [to_number p])
      else Throw ArrayLengthError
    else Ok pages.
Proof.
  rewrite pages_loop_equation_1. unfold pages_loop_unfold_clause_1.
  destruct (decide (whole_le p e = true)) as [H | H].
  - transitivity
      (if decide (Z.of_nat (length pages) < max_array_length) then
         pages_loop (incr p) e (pages ++ [to_number p])
       else Throw ArrayLengthError); [| by rewrite H].
    by destruct (decide _).
  - by apply not_true_is_false in H as ->.
Qed.


(** What the loop appends are integers or [Infinity], and at least one
    number when the counter starts at or below the end. *)
Lemma pages_loop_elements p e pages ps :
  pages_loop p e pages = Ok ps →
  ∃ new, ps = pages ++ new
         ∧ Forall (λ x, is_int x = true ∨ x = Inf false) new
         ∧ (whole_le p e = true → new ≠ []).
Proof.
  revert ps. funelim (pages_loop p e pages); intros ps Hrun.
  - injection Hrun as <-. exists []. rewrite app_nil_r.
    split; [done |]. split; [constructor | done].
  - apply H in Hrun as (new & -> & Hall & _).
    exists (to_number p :: new). rewrite <- app_assoc. split; [done |].
    split; [| done]. constructor; [| done].
    destruct p; simpl; [by left | by right | done].
  - done.
Qed.

Lemma pages_loop_throws p e pages err :
  pages_loop p e pages = Throw err → err = ArrayLengthError.
Proof.
  funelim (pages_loop p e pages); intros Hrun;
    [done | by apply H | by injection Hrun].
Qed.

(** A counter that [p++] leaves as it is, at or below the end: the loop
    goes on until the array is full. *)
Lemma pages_loop_stall p e pages :
  incr p = p → whole_le p e = true →
  pages_loop p e pages = Throw ArrayLengthError.
Proof.
  intros Hp Hle.
  remember (Z.to_nat (max_array_length - Z.of_nat (length pages))) as n eqn:Hn.
  revert pages Hn. induction n as [|n IH]; intros pages Hn;
    rewrite pages_loop_step, Hle.
  - by rewrite decide_False by lia.
  - destruct (decide _) as [Hl|]; [| done]. rewrite Hp. apply IH.
    rewrite length_app. simpl. lia.
Qed.

(** ** parsePages on a string that matches *)

Lemma parsePages_groups s g1 g2 :
  exec_range (Js.trim s) = Some (g1, g2) →
  digits g1 ∧ digits g2
  ∧ parsePages (PStr s)
    = if whole_gt (nearest_double (decimal g1)) (nearest_double (decimal g2))
      then Throw (ParseError ("Invalid range: start > end (" +:+ s +:+ ")"))
      else pages_loop (nearest_double (decimal g1))
             (nearest_double (decimal g2)) [].
Proof.
  intros H. unfold parsePages. rewrite H.
  apply exec_range_inv in H as (w1 & w2 & _ & Hd1 & Hn1 & _ & _ & Hd2 & Hn2).
  by rewrite !parseInt_digits.
Qed.



(** ** C4 *)




(** Beyond the integers that a double holds the loop does not end
    before the array is full: from 2^53 to 2^53 the counter stays at
    2^53, and 2^53 + 1 is read as 2^53 and is not found greater. *)
Lemma parsePages_beyond_doubles :
  parsePages (PStr "9007199254740992-9007199254740992")
  = Throw ArrayLengthError
  ∧ parsePages (PStr "9007199254740993-9007199254740992")
    = Throw ArrayLengthError.
Proof.
  split.
  - destruct (parsePages_groups "9007199254740992-9007199254740992"
                "9007199254740992" "9007199254740992" eq_refl)
      as (_ & _ & ->).
    assert (decimal "9007199254740992" = 9007199254740992%N) as ->
      by (by vm_compute).
    assert (nearest_double 9007199254740992 = Whole 9007199254740992) as ->
      by (by vm_compute).
    cbn [whole_gt]. rewrite bool_decide_eq_false_2 by lia.
    apply pages_loop_stall; by vm_compute.
  - destruct (parsePages_groups "9007199254740993-9007199254740992"
                "9007199254740993" "9007199254740992" eq_refl)
      as (_ & _ & ->).
    assert (decimal "9007199254740992" = 9007199254740992%N) as ->
      by (by vm_compute).
    assert (decimal "9007199254740993" = 9007199254740993%N) as ->
      by (by vm_compute).
    assert (nearest_double 9007199254740992 = Whole 9007199254740992) as ->
      by (by vm_compute).
    assert (nearest_double 9007199254740993 = Whole 9007199254740992) as ->
      by (by vm_compute).
    cbn [whole_gt]. rewrite bool_decide_eq_false_2 by lia.
    apply pages_loop_stall; by vm_compute.
Qed.

(** ** White space in a range string *)







(** ** The assembler *)

Lemma in_range_not_out p total :
  in_range p total = true → out_of_range p total = false.
Proof.
  unfold out_of_range. destruct p; simpl; try done; intros H;
    apply bool_decide_eq_true in H;
    apply orb_false_iff; split; apply bool_decide_eq_false; lia.
Qed.

Lemma out_of_range_not_in p total :
  out_of_range p total = true → in_range p total = false.
Proof.
  intros H. destruct (in_range p total) eqn:E; [| done].
  by rewrite (in_range_not_out _ _ E) in H.
Qed.

Lemma bind_Ok {E A B} (m : res E A) (k : A → res E B) a :
  m = Ok a → bind m k = k a.
Proof. by intros ->. Qed.

Lemma join_loop_app loadedPdfs l1 l2 outPdf :
  join_loop loadedPdfs (l1 ++ l2) outPdf
  = bind (join_loop loadedPdfs l1 outPdf) (join_loop loadedPdfs l2).
Proof.
  revert outPdf. induction l1 as [|item l1 IH]; intros outPdf; simpl; [done |].
  destruct (join_item loadedPdfs item outPdf); simpl; [apply IH | done].
Qed.

(** What [parsePages] returns: the number itself for a number, and for
    a string integers or [Infinity], and at least one. *)
Lemma parsePages_kinds pg ps :
  parsePages pg = Ok ps →
  (∃ n, pg = PNum n ∧ ps = [n])
  ∨ (∃ s, pg = PStr s) ∧ ps ≠ []
    ∧ Forall (λ x, is_int x = true ∨ x = Inf false) ps.
Proof.
  destruct pg as [n | s]; simpl.
  - intros [= <-]. left. by exists n.
  - intros H. right. split; [by exists s |].
    destruct (exec_range (Js.trim s)) as [[g1 g2]|] eqn:Hexec; [| done].
    apply exec_range_inv in Hexec
      as (w1 & w2 & _ & Hd1 & Hn1 & _ & _ & Hd2 & Hn2).
    rewrite !parseInt_digits in H by done.
    destruct (whole_gt _ _) eqn:Hgt; [done |].
    apply pages_loop_elements in H as (new & -> & Hall & Hne).
    split; [| done]. apply Hne.
    pose proof (nearest_double_number (decimal g1)).
    pose proof (nearest_double_number (decimal g2)).
    destruct (nearest_double (decimal g1)), (nearest_double (decimal g2));
      simpl in *; try done.
    apply bool_decide_eq_false in Hgt. apply bool_decide_eq_true. lia.
Qed.


(** A resolved page number that passes the bounds check is an integer,
    but for the number of a page given as a number. *)
Lemma in_bounds_is_int x total :
  is_int x = true ∨ x = Inf false → out_of_range x total = false →
  is_int x = true.
Proof. by intros [? | ->]. Qed.

Lemma parsePages_prefix_ints pg ok p rest total :
  parsePages pg = Ok (ok ++ p :: rest) →
  forallb (λ q, negb (out_of_range q total)) ok = true →
  forallb is_int ok = true.
Proof.
  intros [(n & _ & Heq) | (_ & _ & Hall)]%parsePages_kinds Hok.
  - by destruct ok as [|? [|? ?]].
  - apply Forall_app in Hall as [Hall _].
    apply forallb_forall. intros q Hq.
    rewrite forallb_forall in Hok. rewrite Forall_forall in Hall.
    apply (in_bounds_is_int q total).
    + by apply Hall, list_elem_of_In.
    + by apply negb_true_iff, Hok.
Qed.

Lemma copy_pages_all pdfIndex total ps outPdf :
  forallb (λ p, negb (out_of_range p total)) ps = true →
  forallb is_int ps = true →
  copy_pages pdfIndex total ps outPdf = Ok (outPdf ++ (CopiedPage pdfIndex <$> ps)).
Proof.
  revert outPdf. induction ps as [|p ps IH]; intros outPdf H Hint; simpl in *.
  - by rewrite app_nil_r.
  - apply andb_true_iff in H as [Hp Hps]. apply negb_true_iff in Hp.
    apply andb_true_iff in Hint as [Hi Hint].
    rewrite Hp. destruct p; try done.
    by rewrite (IH _ Hps Hint), <- app_assoc.
Qed.

Lemma copy_pages_stop pdfIndex total ok p rest outPdf :
  forallb (λ p, negb (out_of_range p total)) ok = true →
  forallb is_int ok = true →
  out_of_range p total = true →
  copy_pages pdfIndex total (ok ++ p :: rest) outPdf
  = Throw (Error (out_of_range_message p pdfIndex total)).
Proof.
  revert outPdf.
  induction ok as [|q ok IH]; intros outPdf Hok Hint Hp; simpl in *.
  - by rewrite Hp.
  - apply andb_true_iff in Hok as [Hq Hok]. apply negb_true_iff in Hq.
    apply andb_true_iff in Hint as [Hi Hint].
    rewrite Hq. destruct q; try done. by apply IH.
Qed.

(** A page number within the bounds that is no integer: [copyPages]
    finds no page. *)
Lemma copy_pages_no_page pdfIndex total ok p rest outPdf :
  forallb (λ p, negb (out_of_range p total)) ok = true →
  forallb is_int ok = true →
  out_of_range p total = false → is_int p = false →
  copy_pages pdfIndex total (ok ++ p :: rest) outPdf = Throw TypeError.
Proof.
  revert outPdf.
  induction ok as [|q ok IH]; intros outPdf Hok Hint Hp Hi; simpl in *.
  - rewrite Hp. by destruct p.
  - apply andb_true_iff in Hok as [Hq Hok]. apply negb_true_iff in Hq.
    apply andb_true_iff in Hint as [Hq' Hint].
    rewrite Hq. destruct q; try done. by apply IH.
Qed.

Lemma accepted_inv loadedPdfs item :
  accepted loadedPdfs item = true →
  truthy (blank item) = true
  ∨ ∃ pdfIndex pg srcPdf ps,
      truthy (blank item) = false
      ∧ pdf item = Some pdfIndex ∧ num_lt pdfIndex 0 = false
      ∧ page item = Some pg ∧ index loadedPdfs pdfIndex = Some srcPdf
      ∧ parsePages pg = Ok ps
      ∧ forallb (λ p, negb (out_of_range p (getPageCount srcPdf))) ps = true
      ∧ forallb is_int ps = true.
Proof.
  unfold accepted, passes_checks, whole_pages.
  destruct (truthy (blank item)); [by left |]. simpl.
  destruct (pdf item) as [pdfIndex|]; [| done].
  destruct (page item) as [pg|]; [| done].
  intros [[Hneg H]%andb_true_iff Hint]%andb_true_iff.
  apply negb_true_iff in Hneg.
  destruct (index loadedPdfs pdfIndex) as [srcPdf|] eqn:Hsrc; [| done].
  destruct (parsePages pg) as [ps|] eqn:Hps; [| done].
  right. by exists pdfIndex, pg, srcPdf, ps.
Qed.

Lemma join_item_accepted loadedPdfs item outPdf :
  accepted loadedPdfs item = true →
  join_item loadedPdfs item outPdf = Ok (outPdf ++ item_pages item).
Proof.
  unfold join_item, item_pages.
  intros [-> | (pdfIndex & pg & srcPdf & ps & -> & -> & -> & -> & -> & Hps
                & Hok & Hint)]%accepted_inv; [done |].
  rewrite Hps. by apply copy_pages_all.
Qed.


Lemma join_loop_accepted loadedPdfs joinList outPdf :
  Forall (λ item, accepted loadedPdfs item = true) joinList →
  join_loop loadedPdfs joinList outPdf = Ok (outPdf ++ (joinList ≫= item_pages)).
Proof.
  intros H. revert outPdf.
  induction H as [|item joinList Hitem _ IH]; intros outPdf; simpl.
  - by rewrite app_nil_r.
  - rewrite (join_item_accepted _ _ _ Hitem). simpl.
    by rewrite IH, <- app_assoc.
Qed.

Lemma copy_pages_Ok pdfIndex total ps outPdf outPdf' :
  copy_pages pdfIndex total ps outPdf = Ok outPdf' →
  forallb (λ p, negb (out_of_range p total)) ps = true
  ∧ forallb is_int ps = true.
Proof.
  revert outPdf. induction ps as [|p ps IH]; intros outPdf; simpl; [done |].
  destruct (out_of_range p total); [done |].
  destruct p; try done. apply IH.
Qed.

Lemma join_item_Ok loadedPdfs item outPdf outPdf' :
  join_item loadedPdfs item outPdf = Ok outPdf' →
  accepted loadedPdfs item = true.
Proof.
  unfold join_item, accepted, passes_checks, whole_pages.
  destruct (truthy (blank item)); [done |].
  destruct (pdf item) as [pdfIndex|]; [| done].
  destruct (num_lt pdfIndex 0); [done |].
  destruct (page item) as [pg|]; [| done].
  destruct (index loadedPdfs pdfIndex) as [srcPdf|]; [| done].
  destruct (parsePages pg) as [ps|]; [| done].
  simpl. intros [-> ->]%copy_pages_Ok. done.
Qed.

Lemma join_loop_Ok loadedPdfs joinList outPdf outPdf' :
  join_loop loadedPdfs joinList outPdf = Ok outPdf' →
  Forall (λ item, accepted loadedPdfs item = true) joinList.
Proof.
  revert outPdf. induction joinList as [|item rest IH]; intros outPdf; simpl.
  - by constructor.
  - destruct (join_item loadedPdfs item outPdf) as [out|] eqn:E; [| done].
    simpl. intros H. constructor; [by eapply join_item_Ok | by eapply IH].
Qed.

(** [join] returns what its loop has assembled, saved. *)
Lemma join_Ok loadedPdfs joinList outPdf :
  join loadedPdfs joinList = Ok outPdf
  ↔ ∃ assembled, join_loop loadedPdfs joinList [] = Ok assembled
                 ∧ outPdf = save assembled.
Proof.
  unfold join. destruct (join_loop loadedPdfs joinList []) as [out|]; simpl.
  - split; [intros [= <-]; by exists out | by intros (? & [= <-] & ->)].
  - split; [done | by intros (? & ? & _)].
Qed.

Lemma join_Throw loadedPdfs joinList e :
  join loadedPdfs joinList = Throw e
  ↔ join_loop loadedPdfs joinList [] = Throw e.
Proof.
  unfold join. by destruct (join_loop loadedPdfs joinList []).
Qed.





(** The claim as it was stated fails on the empty join list, whose
    saved document has a page, and on a page number that passes the
    checks and is no integer. *)
Lemma join_default_page_and_fraction :
  join example_pdfs [] = Ok [BlankPage]
  ∧ passes_checks example_pdfs
      (mkJoinItem (Some (Int 0)) (Some (PNum (Frac 1 "1.5"))) None) = true
  ∧ join example_pdfs
      [mkJoinItem (Some (Int 0)) (Some (PNum (Frac 1 "1.5"))) None]
    = Throw TypeError.
Proof. done. Qed.

(** C3. When [join] meets a resolved page number below 1 or above the
    page count of its source, it throws the error that names the page
    number, the pdf index and the page count; no document is returned,
    and whatever follows in the join list plays no part. *)
Theorem join_aborts_out_of_range loadedPdfs before item after
    outPdf pdfIndex pg srcPdf ok p rest :
  join loadedPdfs before = Ok outPdf →
  truthy (blank item) = false →
  pdf item = Some pdfIndex → num_lt pdfIndex 0 = false →
  page item = Some pg →
  index loadedPdfs pdfIndex = Some srcPdf →
  parsePages pg = Ok (ok ++ p :: rest) →
  forallb (λ q, negb (out_of_range q (getPageCount srcPdf))) ok = true →
  out_of_range p (getPageCount srcPdf) = true →
  join loadedPdfs (before ++ item :: after)
  = Throw (Error ("joinList requests page " +:+ num_to_string p
                  +:+ " from pdf[" +:+ num_to_string pdfIndex
                  +:+ "] which has only " +:+ pretty (getPageCount srcPdf)
                  +:+ " pages")).
Proof.
  intros (out & Hbefore & _)%join_Ok Hblank Hpdf Hneg Hpage Hsrc Hparse Hok Hp.
  apply join_Throw. rewrite join_loop_app, Hbefore. simpl.
  unfold join_item. rewrite Hblank, Hpdf, Hneg, Hpage, Hsrc, Hparse.
  rewrite copy_pages_stop; [done | done | | done].
  by eapply parsePages_prefix_ints.
Qed.

Lemma join_aborts_out_of_range_witness :
  join example_pdfs
    ([mkJoinItem (Some (Int 0)) (Some (PNum (Int 1))) None]
     ++ mkJoinItem (Some (Int 1)) (Some (PStr "6-9")) None
     :: [mkJoinItem (Some (Int 0)) (Some (PNum (Int 2))) None])
  = Throw (Error "joinList requests page 8 from pdf[1] which has only 7 pages").
Proof.
  apply (join_aborts_out_of_range example_pdfs _ _ _
           [CopiedPage (Int 0) (Int 1)] (Int 1) (PStr "6-9")
           (mkPDFDocument 7) [Int 6; Int 7] (Int 8) [Int 9]);
    reflexivity.
Defined.

(** ** The validator *)


(** A usage record is read for a number only when the number is an index
    of the array. *)
Lemma index_Some {A} (arr : list A) x a :
  index arr x = Some a ↔ ∃ z, x = Int z ∧ 0 ≤ z ∧ arr !! Z.to_nat z = Some a.
Proof.
  split.
  - destruct x as [z| | |]; simpl; try done.
    case_decide; [| done]. intros Ha. by exists z.
  - intros (z & -> & Hz & H). simpl. by rewrite decide_True.
Qed.

Lemma total_of_positive info pdfIndex :
  0 < total_of info pdfIndex →
  ∃ z d, pdfIndex = Int z ∧ 0 ≤ z ∧ info !! Z.to_nat z = Some d
         ∧ total_of info pdfIndex = pages d.
Proof.
  unfold total_of. destruct (index info pdfIndex) as [d|] eqn:E; [| lia].
  apply index_Some in E as (z & -> & Hz & E). intros _. by exists z, d.
Qed.

Lemma in_range_positive p total : in_range p total = true → 0 < total.
Proof.
  destruct p; simpl; try done; intros H; apply bool_decide_eq_true in H; lia.
Qed.

(** C10. An item whose [blank] field is true is a blank marker for the
    validator and for the assembler, whatever [pdf] and [page] it also
    carries: the validator leaves errors and usage as they are, and the
    assembler appends one blank page. *)
Theorem blank_takes_precedence item :
  truthy (blank item) = true →
  (∀ info i result, test_item info i item result = Ok result)
  ∧ (∀ loadedPdfs outPdf,
       join_item loadedPdfs item outPdf = Ok (outPdf ++ [BlankPage])).
Proof.
  intros H. split; intros; unfold test_item, join_item; by rewrite H.
Qed.

Lemma blank_takes_precedence_witness :
  test_item [mkPdfInfo "a.pdf" 12] 0
    (mkJoinItem (Some (Int 7)) (Some (PStr "x")) (Some true))
    (initial_result [mkPdfInfo "a.pdf" 12])
  = Ok (initial_result [mkPdfInfo "a.pdf" 12])
  ∧ join_item [mkPDFDocument 12]
      (mkJoinItem (Some (Int 7)) (Some (PStr "x")) (Some true)) []
    = Ok [BlankPage].
Proof.
  destruct (blank_takes_precedence
              (mkJoinItem (Some (Int 7)) (Some (PStr "x")) (Some true))
              eq_refl) as [H1 H2].
  split; [apply H1 | apply (H2 _ [])].
Defined.

(** The messages of what [parsePages] throws begin with a capital I. *)
Lemma parsePages_message pg err :
  parsePages pg = Throw err → ∃ t, message err = String "I" t.
Proof.
  destruct pg as [n | s]; simpl; [done |].
  destruct (exec_range (Js.trim s)) as [[g1 g2]|].
  - destruct (whole_gt _ _); [intros [= <-]; by eexists |].
    intros ->%pages_loop_throws. by eexists.
  - intros [= <-]. by eexists.
Qed.

(** What the loop over the page numbers of an entry adds to the errors:
    messages about a page that a source does not have. *)
Lemma check_pages_errors i pdfIndex total ps result result' :
  check_pages i pdfIndex total ps result = Ok result' →
  ∃ es, errors result' = errors result ++ es
        ∧ Forall (λ e, ∃ t, e = entry_prefix i +:+ String "p" t) es.
Proof.
  revert result. induction ps as [|p ps IH]; intros result; simpl.
  - intros [= <-]. exists []. by rewrite app_nil_r.
  - destruct (out_of_range p total).
    + intros H. apply IH in H as (es & -> & Hes). simpl.
      eexists (_ :: es). rewrite <- app_assoc. split; [done |].
      constructor; [| done]. unfold no_page_message. by eexists.
    + destruct (index (usage result) pdfIndex); [| done].
      intros H. apply IH in H as (es & -> & Hes). by exists es.
Qed.

Lemma push_error_inj result m1 m2 :
  @Ok exn _ (push_error result m1) = Ok (push_error result m2) → m1 = m2.
Proof.
  unfold push_error. intros [= H]. by apply app_inv_head in H as [= ->].
Qed.

Lemma invalid_pdf_message_eq i :
  invalid_pdf_message i = entry_prefix i +:+ "invalid or missing 'pdf' index".
Proof. unfold invalid_pdf_message, entry_prefix. by rewrite !app_assoc_str. Qed.

(** C2, as the code has it. For a non-blank entry the validator appends
    exactly the error [Entry #i: invalid or missing 'pdf' index], and
    leaves the usage as it is, when the [pdf] field is missing or is a
    negative number, and only then: a number that is not negative,
    integer or not, comes through this check. *)
Theorem test_item_invalid_pdf info i item result :
  truthy (blank item) = false →
  test_item info i item result
  = Ok (mkTestResult (errors result ++ [invalid_pdf_message i]) (usage result))
  ↔ pdf item = None ∨ ∃ x, pdf item = Some x ∧ num_lt x 0 = true.
Proof.
  intros Hblank. rewrite invalid_pdf_message_eq.
  change (mkTestResult (errors result ++ [?m]) (usage result))
    with (push_error result m).
  unfold test_item. rewrite Hblank.
  destruct (pdf item) as [x|]; [| by split; [left |]].
  destruct (num_lt x 0) eqn:Hneg; [by split; [right; exists x |] |].
  split; [| by intros [? | (? & [= <-] & ?)]; congruence].
  intros H. exfalso.
  destruct (page item) as [pg|].
  - destruct (parsePages pg) as [ps | err] eqn:Hparse.
    + apply check_pages_errors in H as (es & H & Hes). simpl in H.
      apply app_inv_head in H. subst es.
      apply Forall_cons in Hes as [[t Ht] _].
      by apply String.app_inj in Ht.
    + apply parsePages_message in Hparse as [t Ht].
      apply push_error_inj in H. rewrite Ht in H.
      by apply String.app_inj in H.
  - apply push_error_inj in H. by apply String.app_inj in H.
Qed.

Lemma test_item_invalid_pdf_witness :
  test_item [mkPdfInfo "a.pdf" 12] 3
    (mkJoinItem (Some (Int (-1))) (Some (PNum (Int 1))) None)
    (initial_result [mkPdfInfo "a.pdf" 12])
  = Ok (mkTestResult ["Entry #3: invalid or missing 'pdf' index"]
          (usage (initial_result [mkPdfInfo "a.pdf" 12]))).
Proof.
  apply (test_item_invalid_pdf [mkPdfInfo "a.pdf" 12] 3
           (mkJoinItem (Some (Int (-1))) (Some (PNum (Int 1))) None)
           (initial_result [mkPdfInfo "a.pdf" 12]) eq_refl).
  right. exists (Int (-1)). split; reflexivity.
Defined.

(** The claim C2 as the specification words it fails for a [pdf] of 0.5:
    the entry is not refused for its index; it is checked against a page
    count of 0. *)
Lemma fractional_pdf_not_refused :
  let info := [mkPdfInfo "a.pdf" 12] in
  let item := mkJoinItem (Some (Frac 0 "0.5")) (Some (PNum (Int 1))) None in
  truthy (blank item) = false
  ∧ test_item info 0 item (initial_result info)
    ≠ Ok (mkTestResult ["Entry #0: invalid or missing 'pdf' index"]
            (usage (initial_result info)))
  ∧ test_item info 0 item (initial_result info)
    = Ok (mkTestResult ["Entry #0: pdf[0.5] has no page 1 (max 0)"]
            (usage (initial_result info))).
Proof. done. Qed.

Lemma modify_Int {A} (arr : list A) z f a :
  0 ≤ z → arr !! Z.to_nat z = Some a →
  modify arr (Int z) f = <[Z.to_nat z := f a]> arr.
Proof.
  intros Hz Ha. unfold modify. rewrite decide_True by done.
  apply list_eq. intros j. destruct (decide (Z.to_nat z = j)) as [<- | Hne].
  - rewrite list_lookup_alter_eq, Ha. simpl.
    by rewrite list_lookup_insert_eq by (by eapply lookup_lt_Some).
  - by rewrite list_lookup_alter_ne, list_lookup_insert_ne.
Qed.

Lemma modify_length {A} (arr : list A) x f :
  length (modify arr x f) = length arr.
Proof.
  destruct x; simpl; try done. case_decide; [apply length_alter | done].
Qed.

(** The number of usage records never changes. *)
Lemma check_pages_length i pdfIndex total ps result result' :
  check_pages i pdfIndex total ps result = Ok result' →
  length (usage result') = length (usage result).
Proof.
  revert result. induction ps as [|p ps IH]; intros result; simpl.
  - by intros [= <-].
  - destruct (out_of_range p total); [by intros ->%IH |].
    destruct (index (usage result) pdfIndex); [| done].
    intros ->%IH. simpl. apply modify_length.
Qed.

Lemma test_item_length info i item result result' :
  test_item info i item result = Ok result' →
  length (usage result') = length (usage result).
Proof.
  unfold test_item. repeat case_match; try done; try by intros [= <-].
  apply check_pages_length.
Qed.

Lemma forEach_length info i joinList result result' :
  forEach info i joinList result = Ok result' →
  length (usage result') = length (usage result).
Proof.
  revert i result. induction joinList as [|item l IH]; intros i result; simpl.
  - by intros [= <-].
  - destruct (test_item info i item result) as [r|] eqn:E; [| done]. simpl.
    intros ->%IH. by eapply test_item_length.
Qed.

Lemma initial_result_length info :
  length (usage (initial_result info)) = length info.
Proof. simpl. apply length_fmap. Qed.

Lemma not_out_in_range p total :
  p ≠ NaN → out_of_range p total = false → in_range p total = true.
Proof.
  unfold out_of_range. intros Hp H. apply orb_false_iff in H as [H1 H2].
  destruct p as [z | fl txt | | neg]; simpl in *; try done.
  - apply bool_decide_eq_false in H1. apply bool_decide_eq_false in H2.
    apply bool_decide_eq_true. lia.
  - apply bool_decide_eq_false in H1. apply bool_decide_eq_false in H2.
    apply bool_decide_eq_true. lia.
  - by destruct neg.
Qed.

(** A page number within the page count: the usage record is there, and
    the loop counts the page and goes on. *)
Lemma check_pages_in_range info i pdfIndex p rest result :
  length (usage result) = length info →
  in_range p (total_of info pdfIndex) = true →
  ∃ z u,
    pdfIndex = Int z ∧ 0 ≤ z ∧ usage result !! Z.to_nat z = Some u
    ∧ check_pages i pdfIndex (total_of info pdfIndex) (p :: rest) result
      = check_pages i pdfIndex (total_of info pdfIndex) rest
          (mkTestResult (errors result)
             (<[Z.to_nat z := count_page p u]> (usage result))).
Proof.
  intros Hlen Hin.
  destruct (total_of_positive info pdfIndex) as (z & d & -> & Hz & Hd & _);
    [by eapply in_range_positive |].
  destruct (lookup_lt_is_Some_2 (usage result) (Z.to_nat z)) as [u Hu].
  { rewrite Hlen. by eapply lookup_lt_Some. }
  exists z, u. repeat split; try done.
  cbn [check_pages]. rewrite (in_range_not_out _ _ Hin).
  rewrite (modify_Int _ _ _ u) by done.
  unfold index. by rewrite decide_True, Hu by done.
Qed.

Lemma check_pages_out_of_range i pdfIndex total p rest result :
  out_of_range p total = true →
  check_pages i pdfIndex total (p :: rest) result
  = check_pages i pdfIndex total rest
      (push_error result (no_page_message i pdfIndex p total)).
Proof. intros H. simpl. by rewrite H. Qed.

Lemma count_page_lookup p u key :
  usedPages (count_page p u) !! key
  = if decide (key = num_to_string p)
    then Some (default 0 (usedPages u !! key) + 1)
    else usedPages u !! key.
Proof.
  simpl. case_decide as Hk.
  - subst. by rewrite lookup_insert_eq.
  - by rewrite lookup_insert_ne.
Qed.

(** *** The histogram of a whole run *)

Lemma occurrences_snoc key l p :
  occurrences key (l ++ [p])
  = occurrences key l + (if decide (key = num_to_string p) then 1 else 0).
Proof.
  unfold occurrences. rewrite filter_app, length_app.
  rewrite filter_cons, filter_nil.
  destruct (decide (num_to_string p = key)), (decide (key = num_to_string p));
    try congruence; simpl; lia.
Qed.

Lemma occurrences_nonneg key l : 0 ≤ occurrences key l.
Proof. unfold occurrences. lia. Qed.

Lemma count_entry_snoc key l p :
  (if decide (key = num_to_string p)
   then Some (default 0 (count_entry (occurrences key l)) + 1)
   else count_entry (occurrences key l))
  = count_entry (occurrences key (l ++ [p])).
Proof.
  rewrite occurrences_snoc. pose proof (occurrences_nonneg key l).
  unfold count_entry.
  repeat case_decide; simpl; try done; try lia; f_equal; lia.
Qed.

Lemma check_pages_records f d l i pdfIndex total ps result result' :
  records f d l result →
  check_pages i pdfIndex total ps result = Ok result' →
  records f d
    (l ++ (if decide (pdfIndex = Int (Z.of_nat d))
           then filter (λ p, out_of_range p total = false) ps else []))
    result'.
Proof.
  revert l result. induction ps as [|p ps IH]; intros l result Hinv; simpl.
  - intros [= <-]. rewrite filter_nil. case_decide; by rewrite app_nil_r.
  - destruct (out_of_range p total) eqn:Hp.
    + intros H. apply (IH l) in H; [| done].
      by rewrite filter_cons_False by (by rewrite Hp).
    + destruct (index (usage result) pdfIndex) as [u0|] eqn:Hidx; [| done].
      apply index_Some in Hidx as (z & -> & Hz & Hu0).
      unfold modify. rewrite decide_True by done.
      rewrite filter_cons_True by done.
      destruct (decide (Int z = Int (Z.of_nat d))) as [[= ->] | Hne].
      * intros H. apply (IH (l ++ [p])) in H.
        { by rewrite <- app_assoc in H. }
        destruct Hinv as (u & Hu & Hfile & Htotal & Hcount).
        rewrite Nat2Z.id in *. exists (count_page p u). split.
        { simpl. by rewrite list_lookup_alter_eq, Hu. }
        repeat split; try done. intros key.
        by rewrite count_page_lookup, Hcount, count_entry_snoc.
      * intros H. apply (IH l) in H; [done |].
        destruct Hinv as (u & Hu & Hrest). exists u. split; [| done].
        simpl. rewrite list_lookup_alter_ne; [done |].
        intros <-. apply Hne. f_equal. lia.
Qed.

Lemma test_item_records info f d l i item result result' :
  records f d l result →
  test_item info i item result = Ok result' →
  records f d (l ++ counted_pages info d item) result'.
Proof.
  intros Hinv. unfold test_item, counted_pages.
  destruct (truthy (blank item)); [intros [= <-]; by rewrite app_nil_r |].
  destruct (pdf item) as [pdfIndex|];
    [| intros [= <-]; by rewrite app_nil_r].
  destruct (page item) as [pg|];
    [| destruct (num_lt pdfIndex 0); intros [= <-]; by rewrite app_nil_r].
  destruct (num_lt pdfIndex 0); [intros [= <-]; by rewrite app_nil_r |].
  destruct (parsePages pg) as [ps | message];
    [| intros [= <-]; by rewrite app_nil_r].
  by apply check_pages_records.
Qed.

Lemma forEach_records info f d l i joinList result result' :
  records f d l result →
  forEach info i joinList result = Ok result' →
  records f d (l ++ (joinList ≫= counted_pages info d)) result'.
Proof.
  revert l i result.
  induction joinList as [|item rest IH]; intros l i result Hinv; simpl.
  - intros [= <-]. by rewrite app_nil_r.
  - destruct (test_item info i item result) as [r|] eqn:E; [| done]. simpl.
    intros H. eapply IH in H; [| by eapply test_item_records].
    by rewrite <- app_assoc in H.
Qed.

Lemma initial_result_records info f d :
  info !! d = Some f → records f d [] (initial_result info).
Proof.
  intros Hd. exists (mkUsage (file f) (pages f) ∅). split.
  - simpl. by rewrite list_lookup_fmap, Hd.
  - by repeat split.
Qed.

(** C5. The usage maps start empty. In the loop over the resolved page
    numbers of a well-formed reference, a page number within the page
    count adds exactly 1 to its count in the usage map of the document
    referred to, nothing else changing, and a page number outside it
    appends the one error [Entry #i: pdf[pdf] has no page p (max total)];
    either way the loop goes on with the page numbers that remain. At
    the end of a run the count of a key in the usage map of a document
    is the number of page numbers with that key, among the resolved page
    numbers of the references to the document, that the bounds check let
    through, a repeated reference or a range counting each time. *)
Theorem usage_counting :
  (∀ info u, u ∈ usage (initial_result info) → usedPages u = ∅)
  ∧ (∀ info i item pdfIndex pg ps result,
       truthy (blank item) = false →
       pdf item = Some pdfIndex → num_lt pdfIndex 0 = false →
       page item = Some pg → parsePages pg = Ok ps →
       test_item info i item result
       = check_pages i pdfIndex (total_of info pdfIndex) ps result)
  ∧ (∀ info i pdfIndex p rest result,
       length (usage result) = length info →
       in_range p (total_of info pdfIndex) = true →
       ∃ z u,
         pdfIndex = Int z ∧ 0 ≤ z ∧ usage result !! Z.to_nat z = Some u
         ∧ check_pages i pdfIndex (total_of info pdfIndex) (p :: rest) result
           = check_pages i pdfIndex (total_of info pdfIndex) rest
               (mkTestResult (errors result)
                  (<[Z.to_nat z := count_page p u]> (usage result)))
         ∧ usedPages (count_page p u) !! num_to_string p
           = Some (default 0 (usedPages u !! num_to_string p) + 1)
         ∧ (∀ key, key ≠ num_to_string p →
              usedPages (count_page p u) !! key = usedPages u !! key)
         ∧ usage_file (count_page p u) = usage_file u
         ∧ totalPages (count_page p u) = totalPages u)
  ∧ (∀ i pdfIndex total p rest result,
       out_of_range p total = true →
       check_pages i pdfIndex total (p :: rest) result
       = check_pages i pdfIndex total rest
           (mkTestResult
              (errors result
               ++ ["Entry #" +:+ pretty i +:+ ": pdf[" +:+ num_to_string pdfIndex
                   +:+ "] has no page " +:+ num_to_string p +:+ " (max "
                   +:+ pretty total +:+ ")"])
              (usage result)))
  ∧ (∀ info joinList result d f,
       testList info joinList = Ok result → info !! d = Some f →
       ∃ u, usage result !! d = Some u
            ∧ usage_file u = file f ∧ totalPages u = pages f
            ∧ ∀ key,
                usedPages u !! key
                = count_entry
                    (occurrences key (joinList ≫= counted_pages info d))).
Proof.
  split; [| split; [| split; [| split]]].
  - intros info u Hu. simpl in Hu.
    apply list_elem_of_fmap in Hu as (d & -> & _). done.
  - intros info i item pdfIndex pg ps result Hb Hpdf Hneg Hpage Hparse.
    unfold test_item. by rewrite Hb, Hpdf, Hneg, Hpage, Hparse.
  - intros info i pdfIndex p rest result Hlen Hin.
    destruct (check_pages_in_range info i pdfIndex p rest result Hlen Hin)
      as (z & u & -> & Hz & Hu & Hstep).
    exists z, u. repeat split; try done.
    + rewrite count_page_lookup. by rewrite decide_True.
    + intros key Hkey. rewrite count_page_lookup. by rewrite decide_False.
  - intros i pdfIndex total p rest result Hout.
    rewrite check_pages_out_of_range by done.
    unfold push_error, no_page_message, entry_prefix.
    by rewrite !app_assoc_str.
  - intros info joinList result d f Hrun Hd.
    apply (forEach_records info f d [] 0 joinList (initial_result info));
      [by apply initial_result_records | done].
Qed.

Lemma usage_counting_witness :
  let info := [mkPdfInfo "a.pdf" 12; mkPdfInfo "b.pdf" 7] in
  ∃ z u,
    Int 1 = Int z ∧ 0 ≤ z
    ∧ usage (initial_result info) !! Z.to_nat z = Some u
    ∧ check_pages 0 (Int 1) (total_of info (Int 1)) [Int 2; Int 2]
        (initial_result info)
      = check_pages 0 (Int 1) (total_of info (Int 1)) [Int 2]
          (mkTestResult []
             (<[Z.to_nat z := count_page (Int 2) u]>
                (usage (initial_result info))))
    ∧ usedPages (count_page (Int 2) u) !! "2" = Some 1.
Proof.
  intros info.
  destruct (proj1 (proj2 (proj2 usage_counting)) info 0%nat (Int 1) (Int 2)
              [Int 2] (initial_result info) eq_refl eq_refl)
    as (z & u & Hz & H0 & Hu & Hstep & Hcount & _).
  exists z, u. repeat split; try done.
  injection Hz as <-. injection Hu as <-. exact Hcount.
Defined.

(** ** Entries that do not parse *)



(** C6 fails on an entry whose page is the number NaN and whose [pdf]
    is past the sources: [testList] raises a [TypeError], and the error
    recorded for the entry before it and the entry after it are lost
    with the result. *)
Lemma testList_raises_for_malformed_entry :
  testList example_info
    [ mkJoinItem (Some (Int 0)) (Some (PStr "x")) None;
      mkJoinItem (Some (Int 2)) (Some (PNum NaN)) None;
      mkJoinItem (Some (Int 0)) (Some (PNum (Int 1))) None ]
  = Throw TypeError.
Proof. reflexivity. Qed.

(** ** A [pdf] index past the sources *)

(** Every number but NaN is below 1 or above 0. *)
Lemma out_of_range_zero p : p ≠ NaN → out_of_range p 0 = true.
Proof.
  unfold out_of_range. destruct p as [z | fl txt | | []]; simpl; try done;
    intros _; apply orb_true_iff;
    destruct (decide (z < 1)) || destruct (decide (fl < 1));
    solve [left; by apply bool_decide_eq_true
          | right; apply bool_decide_eq_true; lia].
Qed.

Lemma total_of_past_the_end info z :
  Z.of_nat (length info) ≤ z → total_of info (Int z) = 0.
Proof.
  intros Hz. unfold total_of. simpl.
  case_decide; [| done]. rewrite lookup_ge_None_2; [done | lia].
Qed.

(** With a page count of 0, page numbers other than NaN are all refused
    and no usage record is read. *)
Lemma check_pages_no_pages i pdfIndex ps result :
  Forall (λ p, p ≠ NaN) ps →
  check_pages i pdfIndex 0 ps result
  = Ok (mkTestResult (errors result ++ no_page_messages i pdfIndex 0 ps)
          (usage result)).
Proof.
  intros H. revert result.
  induction H as [|p ps Hp _ IH]; intros result; simpl.
  - rewrite app_nil_r. by destruct result.
  - rewrite (out_of_range_zero p Hp), IH. simpl. by rewrite <- app_assoc.
Qed.

(** X2. For an entry whose [pdf] is an integer past the last source and
    whose resolved page numbers are not NaN, the validator reports each
    page number and goes on. *)
Lemma test_item_unknown_pdf info i item z pg ps result :
  truthy (blank item) = false →
  pdf item = Some (Int z) → Z.of_nat (length info) ≤ z →
  page item = Some pg → parsePages pg = Ok ps →
  Forall (λ p, p ≠ NaN) ps →
  test_item info i item result
  = Ok (mkTestResult (errors result ++ no_page_messages i (Int z) 0 ps)
          (usage result)).
Proof.
  intros Hb Hpdf Hz Hpage Hparse Hps. unfold test_item.
  rewrite Hb, Hpdf, Hpage, Hparse. simpl.
  rewrite bool_decide_eq_false_2 by lia.
  rewrite total_of_past_the_end by done. by apply check_pages_no_pages.
Qed.

Lemma test_item_unknown_pdf_witness :
  test_item example_info 0
    (mkJoinItem (Some (Int 2)) (Some (PStr "1-2")) None)
    (initial_result example_info)
  = Ok (mkTestResult
          [ "Entry #0: pdf[2] has no page 1 (max 0)";
            "Entry #0: pdf[2] has no page 2 (max 0)" ]
          (usage (initial_result example_info))).
Proof.
  apply (test_item_unknown_pdf example_info 0
           (mkJoinItem (Some (Int 2)) (Some (PStr "1-2")) None) 2
           (PStr "1-2") [Int 1; Int 2] (initial_result example_info));
    try reflexivity.
  repeat constructor; discriminate.
Defined.

(** C7 fails for the page number NaN, which is neither below 1 nor above
    0: the validator then reads the usage record of the missing source
    and throws a TypeError. *)
Lemma testList_NaN_page_unknown_pdf :
  testList [mkPdfInfo "a.pdf" 12]
    [mkJoinItem (Some (Int 1)) (Some (PNum NaN)) None]
  = Throw TypeError.
Proof. reflexivity. Qed.

(** ** Page numbers given as numbers *)



(** The claim as it was stated fails on 1.5 with a source of 12 pages:
    the number passes the bounds check, the validator reports nothing and
    counts the page under its own key, and the assembler fails with a
    [TypeError], not with the error of its bounds check. *)
Lemma fraction_passes_bounds_checks :
  out_of_range (Frac 1 "1.5") 12 = false
  ∧ testList example_info
      [mkJoinItem (Some (Int 0)) (Some (PNum (Frac 1 "1.5"))) None]
    = Ok (mkTestResult []
            [mkUsage "a.pdf" 12 (<["1.5" := 1]> ∅); mkUsage "b.pdf" 7 ∅])
  ∧ join example_pdfs
      [mkJoinItem (Some (Int 0)) (Some (PNum (Frac 1 "1.5"))) None]
    = Throw TypeError.
Proof. split; [done |]. split; [by vm_compute | done]. Qed.

(** ** When the validator returns *)

(** A range string never resolves to NaN: only the number NaN does. *)
Lemma parsePages_NaN pg ps :
  parsePages pg = Ok ps → NaN ∈ ps → pg = PNum NaN.
Proof.
  intros [(n & -> & ->) | (_ & _ & Hall)]%parsePages_kinds HNaN.
  - apply list_elem_of_singleton in HNaN. by subst.
  - rewrite Forall_forall in Hall. by destruct (Hall NaN HNaN).
Qed.

Lemma check_pages_returns info i pdfIndex ps result :
  length (usage result) = length info → NaN ∉ ps →
  ∃ result', check_pages i pdfIndex (total_of info pdfIndex) ps result
             = Ok result'.
Proof.
  revert result. induction ps as [|p ps IH]; intros result Hlen Hps.
  - by eexists.
  - apply not_elem_of_cons in Hps as [Hp Hps].
    destruct (out_of_range p (total_of info pdfIndex)) eqn:Hout.
    + rewrite check_pages_out_of_range by done. by apply IH.
    + destruct (check_pages_in_range info i pdfIndex p ps result Hlen)
        as (z & u & -> & Hz & Hu & ->); [by apply not_out_in_range |].
      apply IH; [| done]. simpl. by rewrite length_insert.
Qed.

(** The validator returns for every join list with no page NaN. *)
Lemma testList_returns info joinList :
  Forall (λ item, page item ≠ Some (PNum NaN)) joinList →
  ∃ result, testList info joinList = Ok result.
Proof.
  unfold testList. generalize 0%nat.
  pose proof (initial_result_length info) as Hlen. revert Hlen.
  generalize (initial_result info) as result.
  intros result Hlen i H. revert result Hlen i.
  induction H as [|item rest Hitem _ IH]; intros result Hlen i; simpl.
  - by eexists.
  - assert (∃ r, test_item info i item result = Ok r) as [r Hr].
    { unfold test_item. repeat case_match; try by eexists.
      apply check_pages_returns; [done |].
      intros HNaN. apply Hitem. f_equal. by eapply parsePages_NaN. }
    rewrite Hr. simpl. apply IH.
    by rewrite (test_item_length _ _ _ _ _ Hr).
Qed.

Lemma testList_returns_witness :
  ∃ result, testList example_info example_joinList = Ok result.
Proof.
  apply (testList_returns example_info example_joinList).
  repeat constructor; discriminate.
Defined.

Lemma check_pages_throws i pdfIndex total ps result e :
  check_pages i pdfIndex total ps result = Throw e → e = TypeError.
Proof.
  revert result. induction ps as [|p ps IH]; intros result; simpl; [done |].
  destruct (out_of_range p total); [apply IH |].
  destruct (index (usage result) pdfIndex); [apply IH | by intros [= <-]].
Qed.

(** The callback throws for one kind of entry only: a page reference
    whose [page] is the number NaN; it then throws a TypeError. *)
Lemma test_item_throws info i item result e :
  length (usage result) = length info →
  test_item info i item result = Throw e →
  page item = Some (PNum NaN) ∧ e = TypeError.
Proof.
  intros Hlen. unfold test_item.
  destruct (truthy (blank item)); [done |].
  destruct (pdf item) as [pdfIndex|]; [| done].
  destruct (num_lt pdfIndex 0); [done |].
  destruct (page item) as [pg|]; [| done].
  destruct (parsePages pg) as [ps | message] eqn:Hparse; [| done].
  intros Hthrow. split; [| by eapply check_pages_throws].
  f_equal. apply (parsePages_NaN pg ps Hparse).
  destruct (decide (NaN ∈ ps)) as [Hin | Hnot]; [done |].
  destruct (check_pages_returns info i pdfIndex ps result Hlen Hnot) as [r Hr].
  congruence.
Qed.

Lemma test_item_throws_witness :
  page (mkJoinItem (Some (Int 2)) (Some (PNum NaN)) None) = Some (PNum NaN)
  ∧ TypeError = TypeError.
Proof.
  apply (test_item_throws example_info 0
           (mkJoinItem (Some (Int 2)) (Some (PNum NaN)) None)
           (initial_result example_info) TypeError);
    reflexivity.
Defined.

(** ** The examples of the specification *)

Lemma testList_example :
  testList example_info example_joinList
  = Ok (mkTestResult []
          [ mkUsage "a.pdf" 12 (<["1" := 1]> (<["5" := 1]> ∅));
            mkUsage "b.pdf" 7 (<["2" := 1]> (<["3" := 1]> (<["4" := 1]> ∅))) ]).
Proof. vm_compute. reflexivity. Qed.

Lemma testList_example_page_99 :
  testList example_info [mkJoinItem (Some (Int 0)) (Some (PNum (Int 99))) None]
  = Ok (mkTestResult ["Entry #0: pdf[0] has no page 99 (max 12)"]
          [mkUsage "a.pdf" 12 ∅; mkUsage "b.pdf" 7 ∅]).
Proof. reflexivity. Qed.

(** ** The decoder of the inline notation *)

Lemma split_nonempty sep s : Js.split sep s ≠ [].
Proof. destruct s as [|c s]; simpl; [done |]. by repeat case_match. Qed.



(** A character is given with its eight bits: what lowers to a letter
    is found by trying them all. *)
Ltac lower_char_cases c :=
  split; [| by intros [-> | ->]];
  destruct c as [[] [] [] [] [] [] [] []]; vm_compute; intros H;
  first [by left | by right | discriminate H].

Lemma lower_char_b c : Js.lower_char c = "b"%char ↔ (c = "b" ∨ c = "B")%char.
Proof. lower_char_cases c. Qed.

Lemma lower_char_l c : Js.lower_char c = "l"%char ↔ (c = "l" ∨ c = "L")%char.
Proof. lower_char_cases c. Qed.

Lemma lower_char_a c : Js.lower_char c = "a"%char ↔ (c = "a" ∨ c = "A")%char.
Proof. lower_char_cases c. Qed.

Lemma lower_char_n c : Js.lower_char c = "n"%char ↔ (c = "n" ∨ c = "N")%char.
Proof. lower_char_cases c. Qed.

Lemma lower_char_k c : Js.lower_char c = "k"%char ↔ (c = "k" ∨ c = "K")%char.
Proof. lower_char_cases c. Qed.

(** [token.toLowerCase() === "blank"] holds of the word in any case. *)
Lemma toLowerCase_blank t : Js.toLowerCase t = "blank" ↔ blank_word t.
Proof.
  unfold blank_word. split.
  - destruct t as [|c1 [|c2 [|c3 [|c4 [|c5 [|c6 t]]]]]]; try done.
    simpl. intros [= H1 H2 H3 H4 H5].
    exists c1, c2, c3, c4, c5.
    by rewrite <- lower_char_b, <- lower_char_l, <- lower_char_a,
      <- lower_char_n, <- lower_char_k.
  - intros (c1 & c2 & c3 & c4 & c5 & -> & H1 & H2 & H3 & H4 & H5).
    apply lower_char_b in H1. apply lower_char_l in H2.
    apply lower_char_a in H3. apply lower_char_n in H4.
    apply lower_char_k in H5. simpl. by rewrite H1, H2, H3, H4, H5.
Qed.

Lemma digits_not_blank d t : digits d → ¬ blank_word (d +:+ t).
Proof.
  intros [Hd Hne] (c1 & c2 & c3 & c4 & c5 & E & H1 & _).
  destruct d as [|c d]; [done |]. unfold_app. injection E as -> _.
  simpl in Hd. apply andb_true_iff in Hd as [Hc _].
  by destruct H1 as [-> | ->].
Qed.

Lemma digits_app_nonempty d t : digits d → d +:+ t ≠ "".
Proof. intros [_ Hne]. by destruct d. Qed.

Lemma includes_digits d :
  all_chars Js.is_digit d = true → Js.includes "-" d = false.
Proof.
  induction d as [|c d IH]; simpl; [done |]. intros H.
  apply andb_true_iff in H as [Hc Hd]. rewrite (IH Hd).
  case_decide; [by subst |]. done.
Qed.

Lemma includes_app c s t :
  Js.includes c (s +:+ t) = Js.includes c s || Js.includes c t.
Proof.
  induction s as [|d s IH]; unfold_app; simpl; [done |].
  by case_decide.
Qed.

(** The strings that [/^(\d+):([\d]+(?:-[\d]+)?)$/] matches, and their
    groups. *)
Lemma exec_token_page d1 d2 :
  digits d1 → digits d2 → exec_token (d1 +:+ ":" +:+ d2) = Some (d1, d2).
Proof.
  intros [Hd1 Hn1] [Hd2 Hn2]. unfold exec_token.
  rewrite (span_app Js.is_digit d1) by done.
  rewrite decide_False by done. unfold_app.
  rewrite <- (app_empty_r d2) at 1.
  rewrite (span_app Js.is_digit d2) by done.
  by rewrite decide_False by done.
Qed.

Lemma exec_token_range d1 d2 d3 :
  digits d1 → digits d2 → digits d3 →
  exec_token (d1 +:+ ":" +:+ d2 +:+ "-" +:+ d3)
  = Some (d1, d2 +:+ "-" +:+ d3).
Proof.
  intros [Hd1 Hn1] [Hd2 Hn2] [Hd3 Hn3]. unfold exec_token.
  rewrite (span_app Js.is_digit d1) by done.
  rewrite decide_False by done. unfold_app.
  rewrite (span_app Js.is_digit d2) by done.
  rewrite decide_False by done. unfold_app.
  rewrite <- (app_empty_r d3) at 1.
  rewrite (span_app Js.is_digit d3) by done.
  by rewrite decide_False, decide_True by done.
Qed.

Lemma exec_token_inv token g1 g2 :
  exec_token token = Some (g1, g2) →
  digits g1
  ∧ ((token = g1 +:+ ":" +:+ g2 ∧ digits g2)
     ∨ ∃ d2 d3, token = g1 +:+ ":" +:+ d2 +:+ "-" +:+ d3
                ∧ g2 = d2 +:+ "-" +:+ d3 ∧ digits d2 ∧ digits d3).
Proof.
  unfold exec_token. intros H.
  destruct (Js.span Js.is_digit token) as [a r1] eqn:E1.
  case_decide; [done |].
  destruct r1 as [|c r2]; [done |].
  destruct c as [[] [] [] [] [] [] [] []]; try done.
  destruct (Js.span Js.is_digit r2) as [b r3] eqn:E2.
  case_decide; [done |].
  apply span_spec in E1 as (-> & Ha & _).
  apply span_spec in E2 as (-> & Hb & _).
  destruct r3 as [|c r4].
  - injection H as -> ->. split; [done |]. left.
    by rewrite app_empty_r.
  - destruct c as [[] [] [] [] [] [] [] []]; try done.
    destruct (Js.span Js.is_digit r4) as [d r5] eqn:E3.
    repeat case_decide; try done. injection H as -> <-.
    apply span_spec in E3 as (-> & Hd & _). subst.
    split; [done |]. right. exists b, d. by rewrite app_empty_r.
Qed.

(** The loop body decides a token as the specification words it. *)
Lemma token_result_item token item :
  token_result token = Ok item ↔ token_item token item.
Proof.
  unfold token_result. split.
  - destruct (bool_decide (token = "")) eqn:E1; simpl.
    { apply bool_decide_eq_true in E1 as ->. intros [= <-]. constructor. }
    destruct (bool_decide (Js.toLowerCase token = "blank")) eqn:E2.
    { apply bool_decide_eq_true, toLowerCase_blank in E2.
      intros [= <-]. by constructor. }
    destruct (exec_token token) as [[g1 g2]|] eqn:E3; [| done].
    intros [= <-].
    apply exec_token_inv in E3
      as (Hg1 & [[-> Hg2] | (d2 & d3 & -> & -> & Hd2 & Hd3)]).
    + rewrite includes_digits by apply Hg2.
      rewrite !parseInt_digits by done. by apply token_page.
    + rewrite !includes_app. simpl. rewrite orb_true_r.
      rewrite !parseInt_digits by done. by apply token_range.
  - intros [| t Ht | d1 d2 H1 H2 | d1 d2 d3 H1 H2 H3].
    + done.
    + apply toLowerCase_blank in Ht. rewrite Ht.
      by rewrite (bool_decide_eq_true_2 (_ = "blank")), orb_true_r by done.
    + rewrite bool_decide_eq_false_2 by (by apply digits_app_nonempty).
      rewrite bool_decide_eq_false_2
        by (rewrite toLowerCase_blank; by apply digits_not_blank).
      simpl. rewrite exec_token_page by done.
      rewrite includes_digits by apply H2.
      by rewrite !parseInt_digits by done.
    + rewrite bool_decide_eq_false_2 by (by apply digits_app_nonempty).
      rewrite bool_decide_eq_false_2
        by (rewrite toLowerCase_blank; by apply digits_not_blank).
      simpl. rewrite exec_token_range by done.
      rewrite !includes_app, orb_true_r. simpl.
      by rewrite !parseInt_digits by done.
Qed.

Lemma token_result_message token message :
  token_result token = Throw message → message = invalid_token_message token.
Proof.
  unfold token_result. repeat case_match; try done. by intros [= <-].
Qed.

Lemma parse_tokens_cons token rest items :
  parse_tokens (token :: rest) items
  = bind (token_result token) (λ item, parse_tokens rest (items ++ [item])).
Proof.
  simpl. unfold token_result. by repeat case_match.
Qed.

Lemma parse_tokens_spec tokens items :
  match parse_tokens tokens items with
  | Ok items' => ∃ new, items' = items ++ new ∧ Forall2 token_item tokens new
  | Throw message =>
      ∃ before token after,
        tokens = before ++ token :: after
        ∧ Forall (λ t, ∃ item, token_item t item) before
        ∧ (∀ item, ¬ token_item token item)
        ∧ message = invalid_token_message token
  end.
Proof.
  revert items. induction tokens as [|token rest IH]; intros items.
  - simpl. exists []. by rewrite app_nil_r.
  - rewrite parse_tokens_cons.
    destruct (token_result token) as [item | message] eqn:E; simpl.
    + apply token_result_item in E. specialize (IH (items ++ [item])).
      destruct (parse_tokens rest (items ++ [item])) as [items' | message].
      * destruct IH as (new & -> & Hnew). exists (item :: new).
        rewrite <- app_assoc. split; [done | by constructor].
      * destruct IH as (before & t & after & -> & Hb & Ht & ->).
        exists (token :: before), t, after.
        repeat split; try done. constructor; [by exists item | done].
    + exists [], token, rest. repeat split; try done.
      * intros item Hitem. apply token_result_item in Hitem. congruence.
      * by apply token_result_message.
Qed.







(** *** Trimming *)









(** Digits that denote an integer beyond 2^53 are read as the nearest
    double, which is another integer. *)
Lemma parsePagesArg_rounds_long_digits :
  decimal "9007199254740993" = 9007199254740993%N
  ∧ parsePagesArg "0:9007199254740993"
    = Ok [mkJoinItem (Some (Int 0)) (Some (PNum (Int 9007199254740992)))
            None].
Proof. split; by vm_compute. Qed.

(** The inline notation of the README decodes to its join list. *)
Lemma parsePagesArg_example :
  parsePagesArg "0:1,blank,1:2-4,0:5" = Ok example_joinList.
Proof. reflexivity. Qed.

(** ** The scanners and the regular expressions of the source *)

Lemma matches_class_inv p s :
  matches (Class p) s → ∃ c, s = String c "" ∧ p c = true.
Proof. inversion 1; subst. by eexists. Qed.

Lemma matches_star_class p s :
  matches (Star (Class p)) s ↔ all_chars p s = true.
Proof.
  split.
  - intros H. remember (Star (Class p)) as r eqn:Er.
    induction H as [| | | | | r | r s1 s2 H1 _ H2 IH2]; try done.
    injection Er as ->. apply matches_class_inv in H1 as (c & -> & Hc).
    unfold_app. simpl. by rewrite Hc, IH2.
  - induction s as [|c s IH]; simpl; [constructor |]. intros H.
    apply andb_true_iff in H as [Hc Hs].
    apply (matches_star_cons _ (String c "") s); [by constructor | by apply IH].
Qed.

Lemma matches_digits s : matches re_digits s ↔ digits s.
Proof.
  unfold re_digits, Plus, digits. split.
  - inversion 1 as [| | r1 r2 s1 s2 H1 H2 | | | |]; subst.
    apply matches_class_inv in H1 as (c & -> & Hc).
    apply matches_star_class in H2. unfold_app. simpl. by rewrite Hc, H2.
  - intros [H Hne]. destruct s as [|c s]; [done |]. simpl in H.
    apply andb_true_iff in H as [Hc Hs].
    apply (matches_seq _ _ (String c "") s); [by constructor |].
    by apply matches_star_class.
Qed.

Lemma matches_chr c s : matches (Chr c) s ↔ s = String c "".
Proof.
  unfold Chr. split.
  - intros (d & -> & Hd)%matches_class_inv.
    by apply bool_decide_eq_true in Hd as ->.
  - intros ->. constructor. by apply bool_decide_eq_true.
Qed.

Lemma matches_page s :
  matches re_page s
  ↔ digits s ∨ ∃ d2 d3, s = d2 +:+ "-" +:+ d3 ∧ digits d2 ∧ digits d3.
Proof.
  unfold re_page, Opt. split.
  - inversion 1 as [| | r1 r2 s1 s2 H1 H2 | | | |]; subst.
    apply matches_digits in H1.
    inversion H2 as [| | | r1 r2 s H3 | r1 r2 s H3 | |]; subst.
    + inversion H3 as [| | r1 r2 s3 s4 H4 H5 | | | |]; subst.
      apply matches_chr in H4 as ->. apply matches_digits in H5.
      right. by exists s1, s4.
    + inversion H3; subst. left. by rewrite app_empty_r.
  - intros [H | (d2 & d3 & -> & H2 & H3)].
    + rewrite <- (app_empty_r s).
      apply matches_seq; [by apply matches_digits |].
      apply matches_alt_r. constructor.
    + apply matches_seq; [by apply matches_digits |].
      apply matches_alt_l.
      apply (matches_seq _ _ "-" d3);
        [by apply matches_chr | by apply matches_digits].
Qed.

(** X3. [exec_range] gives the groups of [/^(\d+)\s*-\s*(\d+)$/]: it
    succeeds on the strings made of a match of [\d+], of [\s*], the
    hyphen, a match of [\s*] and one of [\d+], with the two digit
    strings. *)
Lemma exec_range_regex s g1 g2 :
  exec_range s = Some (g1, g2)
  ↔ ∃ w1 w2,
      s = g1 +:+ w1 +:+ "-" +:+ w2 +:+ g2
      ∧ matches re_digits g1 ∧ matches re_spaces w1
      ∧ matches re_spaces w2 ∧ matches re_digits g2.
Proof.
  unfold re_spaces. setoid_rewrite matches_digits.
  setoid_rewrite matches_star_class. split.
  - intros (w1 & w2 & -> & ? & ? & ? & ? & ? & ?)%exec_range_inv.
    by exists w1, w2.
  - intros (w1 & w2 & -> & [? ?] & ? & ? & [? ?]).
    by apply exec_range_shape.
Qed.

(** X4. [exec_token] gives the groups of [/^(\d+):([\d]+(?:-[\d]+)?)$/]. *)
Lemma exec_token_regex token g1 g2 :
  exec_token token = Some (g1, g2)
  ↔ token = g1 +:+ ":" +:+ g2 ∧ matches re_digits g1 ∧ matches re_page g2.
Proof.
  rewrite matches_digits, matches_page. split.
  - intros (H1 & [[-> H2] | (d2 & d3 & -> & -> & H2 & H3)])%exec_token_inv.
    + split; [done |]. split; [done |]. by left.
    + split; [done |]. split; [done |]. right. by exists d2, d3.
  - intros (-> & H1 & [H2 | (d2 & d3 & -> & H2 & H3)]).
    + by apply exec_token_page.
    + by apply exec_token_range.
Qed.

(** * Further properties *)

(** ** The assembler, entry by entry *)

(** The pages assembled so far play no part in what an entry does. *)
Lemma copy_pages_from_empty pdfIndex total ps outPdf :
  copy_pages pdfIndex total ps outPdf
  = bind (copy_pages pdfIndex total ps []) (λ o, Ok (outPdf ++ o)).
Proof.
  revert outPdf. induction ps as [|p ps IH]; intros outPdf; simpl.
  - by rewrite app_nil_r.
  - destruct (out_of_range p total); [done |].
    destruct p; try done.
    rewrite (IH (outPdf ++ _)), (IH [_]).
    destruct (copy_pages pdfIndex total ps []); simpl; [| done].
    by rewrite <- app_assoc.
Qed.

Lemma join_item_from_empty loadedPdfs item outPdf :
  join_item loadedPdfs item outPdf
  = bind (join_item loadedPdfs item []) (λ o, Ok (outPdf ++ o)).
Proof.
  unfold join_item.
  destruct (truthy (blank item)); [done |].
  destruct (pdf item) as [pdfIndex|]; [| done].
  destruct (num_lt pdfIndex 0); [done |].
  destruct (page item) as [pg|]; [| done].
  destruct (index loadedPdfs pdfIndex) as [srcPdf|]; [| done].
  destruct (parsePages pg) as [ps|]; [| done].
  apply copy_pages_from_empty.
Qed.

Lemma join_loop_from_empty loadedPdfs joinList outPdf :
  join_loop loadedPdfs joinList outPdf
  = bind (join_loop loadedPdfs joinList []) (λ o, Ok (outPdf ++ o)).
Proof.
  revert outPdf.
  induction joinList as [|item rest IH]; intros outPdf; simpl.
  - by rewrite app_nil_r.
  - rewrite (join_item_from_empty _ _ outPdf).
    destruct (join_item loadedPdfs item []) as [o|]; simpl; [| done].
    rewrite (IH (outPdf ++ o)), (IH o).
    destruct (join_loop loadedPdfs rest []); simpl; [| done].
    by rewrite <- app_assoc.
Qed.

Lemma join_concat loadedPdfs l1 l2 :
  join_loop loadedPdfs (l1 ++ l2) []
  = append_pages (join_loop loadedPdfs l1 []) (join_loop loadedPdfs l2 []).
Proof.
  unfold append_pages. rewrite join_loop_app.
  destruct (join_loop loadedPdfs l1 []) as [o1|]; simpl; [| done].
  apply join_loop_from_empty.
Qed.

(** X5. Assembling a join list made of two lists one after the other is
    assembling the first and then the second on the same sources: the
    loop of [join], started from the empty document, gives the pages of
    the first followed by those of the second, and the exception is that
    of the first, or else that of the second. *)
Theorem join_app loadedPdfs l1 l2 :
  join_loop loadedPdfs (l1 ++ l2) []
  = append_pages (join_loop loadedPdfs l1 []) (join_loop loadedPdfs l2 []).
Proof. apply join_concat. Qed.

Lemma join_item_refused loadedPdfs item outPdf :
  accepted loadedPdfs item = false →
  ∃ e, join_item loadedPdfs item outPdf = Throw e.
Proof.
  intros H. destruct (join_item loadedPdfs item outPdf) as [o|e] eqn:E.
  - apply join_item_Ok in E. congruence.
  - by exists e.
Qed.



(** ** When the validator throws *)

Lemma index_None_length {A B} (a : list A) (b : list B) x :
  length a = length b → index a x = None → index b x = None.
Proof.
  intros Hlen. destruct x as [z| | |]; simpl; try done.
  case_decide; [| done]. rewrite !lookup_ge_None. lia.
Qed.

Lemma check_pages_NaN_throws i pdfIndex total result :
  index (usage result) pdfIndex = None →
  check_pages i pdfIndex total [NaN] result = Throw TypeError.
Proof. intros H. simpl. by rewrite H. Qed.

(** The callback on an entry that [crashes] names, and on the others. *)
Lemma test_item_crashes info i item result :
  length (usage result) = length info →
  crashes info item = true →
  test_item info i item result = Throw TypeError.
Proof.
  intros Hlen. unfold crashes, test_item.
  destruct (truthy (blank item)); [done |].
  destruct (pdf item) as [pdfIndex|]; [| done].
  destruct (page item) as [[[]|]|]; try done. simpl.
  destruct (num_lt pdfIndex 0); [done |]. simpl.
  destruct (index info pdfIndex) eqn:E; [done |]. intros _.
  by rewrite (index_None_length info (usage result) pdfIndex).
Qed.

Lemma test_item_safe info i item result :
  length (usage result) = length info →
  crashes info item = false →
  ∃ result', test_item info i item result = Ok result'.
Proof.
  intros Hlen Hsafe.
  destruct (test_item info i item result) as [r | e] eqn:E; [by eexists |].
  exfalso. pose proof E as Hthrow.
  apply test_item_throws in Hthrow as [Hpage _]; [| done].
  revert E Hsafe. unfold test_item, crashes. rewrite Hpage.
  destruct (truthy (blank item)); [done |].
  destruct (pdf item) as [pdfIndex|]; [| done].
  destruct (num_lt pdfIndex 0); [done |]. simpl.
  destruct (index (usage result) pdfIndex) as [u|] eqn:Hu; [done |].
  by rewrite (index_None_length (usage result) info pdfIndex).
Qed.

Lemma forEach_outcome info i joinList result :
  length (usage result) = length info →
  match forEach info i joinList result with
  | Ok _ => Forall (λ item, crashes info item = false) joinList
  | Throw e =>
      e = TypeError ∧ Exists (λ item, crashes info item = true) joinList
  end.
Proof.
  revert i result. induction joinList as [|item rest IH]; intros i result Hlen.
  - simpl. constructor.
  - simpl. destruct (crashes info item) eqn:Hc.
    + rewrite test_item_crashes by done. simpl. split; [done |].
      by constructor.
    + destruct (test_item_safe info i item result Hlen Hc) as [r Hr].
      rewrite Hr. simpl.
      specialize (IH (S i) r).
      rewrite (test_item_length _ _ _ _ _ Hr) in IH. specialize (IH Hlen).
      destruct (forEach info (S i) rest r).
      * by constructor.
      * destruct IH as [-> IH]. split; [done |]. by apply Exists_cons_tl.
Qed.

(** X7. [testList] returns a result exactly when no entry is a page
    reference with the page NaN and a [pdf] that is not negative and no
    index of a source; when there is such an entry it throws a TypeError
    and returns neither errors nor usage. *)
Theorem testList_outcome info joinList :
  match testList info joinList with
  | Ok _ => Forall (λ item, crashes info item = false) joinList
  | Throw e =>
      e = TypeError ∧ Exists (λ item, crashes info item = true) joinList
  end.
Proof. apply forEach_outcome, initial_result_length. Qed.

(** ** The errors of a run *)

Lemma check_pages_errors_list i pdfIndex total ps result result' :
  check_pages i pdfIndex total ps result = Ok result' →
  errors result'
  = errors result
    ++ no_page_messages i pdfIndex total
         (filter (λ p, out_of_range p total = true) ps).
Proof.
  revert result. induction ps as [|p ps IH]; intros result; simpl.
  - intros [= <-]. by rewrite app_nil_r.
  - destruct (out_of_range p total) eqn:Hp.
    + intros ->%IH. rewrite filter_cons_True by done. simpl.
      by rewrite <- app_assoc.
    + destruct (index (usage result) pdfIndex); [| done].
      intros ->%IH. by rewrite filter_cons_False by (by rewrite Hp).
Qed.

Lemma test_item_errors info i item result result' :
  test_item info i item result = Ok result' →
  errors result' = errors result ++ entry_errors info i item.
Proof.
  unfold test_item, entry_errors.
  destruct (truthy (blank item)); [intros [= <-]; by rewrite app_nil_r |].
  destruct (pdf item) as [pdfIndex|];
    [| intros [= <-]; simpl; by rewrite invalid_pdf_message_eq].
  destruct (num_lt pdfIndex 0);
    [intros [= <-]; simpl; by rewrite invalid_pdf_message_eq |].
  destruct (page item) as [pg|].
  - destruct (parsePages pg) as [ps | message].
    + apply check_pages_errors_list.
    + intros [= <-]. simpl. unfold entry_prefix. by rewrite !app_assoc_str.
  - intros [= <-]. simpl. unfold entry_prefix. by rewrite !app_assoc_str.
Qed.

Lemma forEach_errors info i joinList result result' :
  forEach info i joinList result = Ok result' →
  errors result'
  = errors result
    ++ concat (imap (λ j, entry_errors info (i + j)) joinList).
Proof.
  revert i result. induction joinList as [|item rest IH]; intros i result.
  - simpl. intros [= <-]. by rewrite app_nil_r.
  - simpl. destruct (test_item info i item result) as [r|] eqn:E; [| done].
    simpl. intros ->%IH. rewrite (test_item_errors _ _ _ _ _ E).
    rewrite Nat.add_0_r, <- app_assoc. do 3 f_equal.
    apply imap_ext. intros j x _. simpl. f_equal. lia.
Qed.

(** X8. The errors of a run are those of its entries, entry after entry
    in the order of the join list, each with the position of its entry:
    at most one for an entry that is malformed, one per refused page
    number for a reference that parses. *)
Theorem testList_errors info joinList result :
  testList info joinList = Ok result →
  errors result = concat (imap (entry_errors info) joinList).
Proof.
  intros H. apply forEach_errors in H. simpl in H. rewrite H.
  f_equal.
Qed.

Lemma testList_errors_witness :
  errors (mkTestResult ["Entry #0: pdf[0] has no page 99 (max 12)"]
            [mkUsage "a.pdf" 12 ∅; mkUsage "b.pdf" 7 ∅])
  = concat (imap (entry_errors example_info)
              [mkJoinItem (Some (Int 0)) (Some (PNum (Int 99))) None]).
Proof.
  apply (testList_errors example_info
           [mkJoinItem (Some (Int 0)) (Some (PNum (Int 99))) None]).
  reflexivity.
Defined.

(** ** The validator and the assembler on the same sources *)

Lemma same_pages_index loadedPdfs info pdfIndex :
  same_pages loadedPdfs info →
  match index loadedPdfs pdfIndex, index info pdfIndex with
  | Some srcPdf, Some d => getPageCount srcPdf = pages d
  | None, None => True
  | _, _ => False
  end.
Proof.
  unfold same_pages. intros H.
  destruct pdfIndex as [z| | |]; simpl; try done.
  case_decide; [| done].
  pose proof (f_equal (λ l, l !! Z.to_nat z) H) as Hz. simpl in Hz.
  rewrite !list_lookup_fmap in Hz.
  destruct (loadedPdfs !! Z.to_nat z), (info !! Z.to_nat z);
    simpl in Hz; by try injection Hz.
Qed.


Lemma fmap_nil_iff {A B} (f : A → B) l : f <$> l = [] ↔ l = [].
Proof. by destruct l. Qed.


Lemma entry_errors_position info i j item :
  entry_errors info i item = [] → entry_errors info j item = [].
Proof.
  unfold entry_errors, no_page_messages. repeat case_match; try done.
  rewrite !fmap_nil_iff. done.
Qed.




Lemma Forall_accepted loadedPdfs joinList :
  Forall (λ item, accepted loadedPdfs item = true) joinList
  ↔ Forall (λ item, passes_checks loadedPdfs item = true) joinList
    ∧ Forall (λ item, whole_pages item = true) joinList.
Proof.
  rewrite <- Forall_and. apply Forall_proper; [| done].
  intros item. unfold accepted. apply andb_true_iff.
Qed.




(** ** The usage and the pages copied *)

Lemma filter_all {A} (P : A → Prop) `{∀ x, Decision (P x)} (l : list A) :
  Forall P l → filter P l = l.
Proof.
  induction 1 as [|x l Hx _ IH]; [done |].
  by rewrite filter_cons_True, IH.
Qed.

Lemma counted_copied_pages pdfIndex d key ps :
  length (filter (λ p, num_to_string p = key)
            (if decide (pdfIndex = Int (Z.of_nat d)) then ps else []))
  = length (filter (λ pg, is_copy d key pg = true) (CopiedPage pdfIndex <$> ps)).
Proof.
  destruct (decide (pdfIndex = Int (Z.of_nat d))) as [Hd | Hd].
  - induction ps as [|p ps IH]; [done |].
    rewrite fmap_cons, !filter_cons. simpl.
    rewrite (bool_decide_eq_true_2 _ Hd). simpl.
    destruct (decide (num_to_string p = key)) as [Hk | Hk].
    + rewrite (bool_decide_eq_true_2 _ Hk), decide_True by done.
      simpl. by rewrite IH.
    + rewrite (bool_decide_eq_false_2 _ Hk), decide_False by done. done.
  - induction ps as [|p ps IH]; [done |].
    rewrite fmap_cons, filter_cons. simpl.
    rewrite (bool_decide_eq_false_2 _ Hd). simpl. exact IH.
Qed.

(** For an entry that passes the checks, the page numbers the validator
    counts for a document are those the assembler copies from it. *)
Lemma counted_pages_copies loadedPdfs info d key item :
  same_pages loadedPdfs info →
  passes_checks loadedPdfs item = true →
  occurrences key (counted_pages info d item) = copies d key (item_pages item).
Proof.
  intros Hsame. unfold passes_checks, counted_pages, item_pages,
    occurrences, copies.
  destruct (truthy (blank item)); [done |]. simpl.
  destruct (pdf item) as [pdfIndex|]; [| done].
  destruct (page item) as [pg|]; [| done].
  destruct (num_lt pdfIndex 0); [done |]. simpl.
  pose proof (same_pages_index loadedPdfs info pdfIndex Hsame) as Hidx.
  unfold total_of.
  destruct (parsePages pg) as [ps|];
    [| by destruct (index loadedPdfs pdfIndex)].
  destruct (index loadedPdfs pdfIndex) as [srcPdf|]; [| discriminate].
  destruct (index info pdfIndex) as [f|]; [| done].
  intros Hall. f_equal. rewrite <- counted_copied_pages.
  case_decide; [| done].
  rewrite (filter_all (λ p, out_of_range p (pages f) = false)); [done |].
  apply Forall_forall. intros p Hp.
  rewrite forallb_forall in Hall. rewrite <- Hidx.
  apply negb_true_iff, Hall. by apply list_elem_of_In.
Qed.

Lemma occurrences_app key l1 l2 :
  occurrences key (l1 ++ l2) = occurrences key l1 + occurrences key l2.
Proof. unfold occurrences. rewrite filter_app, length_app. lia. Qed.

Lemma copies_app d key o1 o2 :
  copies d key (o1 ++ o2) = copies d key o1 + copies d key o2.
Proof. unfold copies. rewrite filter_app, length_app. lia. Qed.

Lemma counted_copies_list loadedPdfs info d key joinList :
  same_pages loadedPdfs info →
  Forall (λ item, passes_checks loadedPdfs item = true) joinList →
  occurrences key (joinList ≫= counted_pages info d)
  = copies d key (joinList ≫= item_pages).
Proof.
  intros Hsame. induction 1 as [|item rest Hitem _ IH]; [done |].
  rewrite !bind_cons, occurrences_app, copies_app, IH.
  by rewrite (counted_pages_copies loadedPdfs).
Qed.

(** The page that [save] adds is no copy. *)
Lemma copies_save d key outPdf : copies d key (save outPdf) = copies d key outPdf.
Proof. by destruct outPdf. Qed.

(** X10. When [join] assembles a join list, the usage that [testList]
    reports for the same sources counts the pages of the output: the
    count under a key in the usage map of a source is the number of
    output pages copied from that source with that page number, and a
    key is absent when no output page is such a copy. *)
Theorem usage_counts_output loadedPdfs info joinList outPdf result d f :
  same_pages loadedPdfs info →
  join loadedPdfs joinList = Ok outPdf →
  testList info joinList = Ok result →
  info !! d = Some f →
  ∃ u, usage result !! d = Some u
       ∧ usage_file u = file f ∧ totalPages u = pages f
       ∧ ∀ key, usedPages u !! key = count_entry (copies d key outPdf).
Proof.
  intros Hsame (assembled & Hjoin & ->)%join_Ok Hrun Hd.
  assert (Forall (λ item, accepted loadedPdfs item = true) joinList)
    as Hacc by (by eapply join_loop_Ok).
  rewrite join_loop_accepted in Hjoin by done. injection Hjoin as <-.
  apply Forall_accepted in Hacc as [Hpass _].
  destruct (forEach_records info f d [] 0 joinList (initial_result info)
              result (initial_result_records info f d Hd) Hrun)
    as (u & Hu & Hfile & Htotal & Hcount).
  exists u. repeat split; try done. intros key.
  rewrite Hcount, copies_save. f_equal.
  apply (counted_copies_list loadedPdfs info d key joinList Hsame Hpass).
Qed.

Lemma usage_counts_output_witness :
  ∃ u, usage (mkTestResult []
                [ mkUsage "a.pdf" 12 (<["1" := 1]> (<["5" := 1]> ∅));
                  mkUsage "b.pdf" 7
                    (<["2" := 1]> (<["3" := 1]> (<["4" := 1]> ∅))) ])
         !! 1%nat = Some u
       ∧ usage_file u = "b.pdf" ∧ totalPages u = 7
       ∧ ∀ key,
           usedPages u !! key
           = count_entry
               (copies 1 key
                  [ CopiedPage (Int 0) (Int 1); BlankPage;
                    CopiedPage (Int 1) (Int 2); CopiedPage (Int 1) (Int 3);
                    CopiedPage (Int 1) (Int 4); CopiedPage (Int 0) (Int 5) ]).
Proof.
  apply (usage_counts_output example_pdfs example_info example_joinList
           _ _ 1%nat (mkPdfInfo "b.pdf" 7)).
  - reflexivity.
  - reflexivity.
  - vm_compute. reflexivity.
  - reflexivity.
Defined.

(** ** The order of the entries *)

Lemma occurrences_perm key l1 l2 :
  l1 ≡ₚ l2 → occurrences key l1 = occurrences key l2.
Proof. intros H. unfold occurrences. by rewrite H. Qed.

Lemma records_unique f d l result u1 u2 :
  usage result !! d = Some u1 →
  usage_file u1 = file f → totalPages u1 = pages f →
  (∀ key, usedPages u1 !! key = count_entry (occurrences key l)) →
  usage_file u2 = file f → totalPages u2 = pages f →
  (∀ key, usedPages u2 !! key = count_entry (occurrences key l)) →
  u1 = u2.
Proof.
  intros _ Hf1 Ht1 Hc1 Hf2 Ht2 Hc2.
  destruct u1 as [f1 t1 m1], u2 as [f2 t2 m2]. simpl in *.
  f_equal; [congruence | congruence |].
  apply map_eq. intros key. by rewrite Hc1, Hc2.
Qed.

(** The number of errors of an entry does not depend on its position. *)
Lemma entry_errors_length info i j item :
  length (entry_errors info i item) = length (entry_errors info j item).
Proof.
  unfold entry_errors, no_page_messages.
  repeat case_match; simpl; try done. by rewrite !length_fmap.
Qed.

Lemma errors_count info k l :
  length (concat (imap (λ j, entry_errors info (k + j)) l))
  = sum_list ((λ item, length (entry_errors info 0 item)) <$> l).
Proof.
  revert k. induction l as [|x l IH]; intros k; [done |].
  rewrite fmap_cons, imap_cons, concat_cons, length_app, Nat.add_0_r.
  simpl sum_list. f_equal.
  - apply entry_errors_length.
  - rewrite <- (IH (S k)). do 2 f_equal. apply imap_ext. intros j y _.
    simpl. f_equal. lia.
Qed.

(** X11. The usage and the number of errors do not depend on the order of
    the entries: a join list and a rearrangement of it, when [testList]
    returns for the one, make it return for the other with the same
    usage records and as many errors. *)
Theorem usage_order_free info l1 l2 result1 :
  l1 ≡ₚ l2 →
  testList info l1 = Ok result1 →
  ∃ result2,
    testList info l2 = Ok result2
    ∧ usage result2 = usage result1
    ∧ length (errors result2) = length (errors result1).
Proof.
  intros Hperm Hrun1.
  pose proof (forEach_outcome info 0 l1 (initial_result info)
                (initial_result_length info)) as Hout1.
  pose proof (forEach_outcome info 0 l2 (initial_result info)
                (initial_result_length info)) as Hout2.
  fold (testList info l1) in Hout1. fold (testList info l2) in Hout2.
  rewrite Hrun1 in Hout1. rewrite Hperm in Hout1.
  destruct (testList info l2) as [result2 | e] eqn:Hrun2.
  - exists result2. split; [done |]. split.
    2: { apply forEach_errors in Hrun1, Hrun2. simpl in Hrun1, Hrun2.
         pose proof (errors_count info 0 l1) as H1.
         pose proof (errors_count info 0 l2) as H2.
         simpl in H1, H2. rewrite Hrun1, Hrun2, H1, H2.
         by rewrite Hperm. }
    apply list_eq. intros d.
    destruct (info !! d) as [f|] eqn:Hd.
    + destruct (forEach_records info f d [] 0 l1 (initial_result info)
                  result1 (initial_result_records info f d Hd) Hrun1)
        as (u1 & Hu1 & Hf1 & Ht1 & Hc1).
      destruct (forEach_records info f d [] 0 l2 (initial_result info)
                  result2 (initial_result_records info f d Hd) Hrun2)
        as (u2 & Hu2 & Hf2 & Ht2 & Hc2).
      rewrite Hu1, Hu2. f_equal.
      apply (records_unique f d ([] ++ (l2 ≫= counted_pages info d))
               result2 u2 u1 Hu2); try done.
      intros key. rewrite Hc1. simpl. f_equal.
      apply occurrences_perm. by rewrite Hperm.
    + apply lookup_ge_None in Hd.
      apply forEach_length in Hrun1, Hrun2.
      rewrite initial_result_length in Hrun1, Hrun2.
      rewrite !lookup_ge_None_2; [done | lia | lia].
  - exfalso. destruct Hout2 as [_ Hex].
    apply Exists_exists in Hex as (item & Hin & Hc).
    eapply Forall_forall in Hout1; [| done]. congruence.
Qed.

Lemma usage_order_free_witness :
  ∃ result2,
    testList example_info (reverse example_joinList) = Ok result2
    ∧ usage result2
      = [ mkUsage "a.pdf" 12 (<["1" := 1]> (<["5" := 1]> ∅));
          mkUsage "b.pdf" 7 (<["2" := 1]> (<["3" := 1]> (<["4" := 1]> ∅))) ]
    ∧ length (errors result2) = 0%nat.
Proof.
  apply (usage_order_free example_info example_joinList
           (reverse example_joinList)
           (mkTestResult []
              [ mkUsage "a.pdf" 12 (<["1" := 1]> (<["5" := 1]> ∅));
                mkUsage "b.pdf" 7
                  (<["2" := 1]> (<["3" := 1]> (<["4" := 1]> ∅))) ])).
  - symmetry. apply reverse_Permutation.
  - vm_compute. reflexivity.
Defined.

(** ** Loading the sources *)

Section LoadingProperties.

Variable load : string → res exn PDFDocument.

Lemma load_loop_outcome pdfs loaded :
  match load_loop load pdfs loaded with
  | Ok docs =>
      ∃ new, docs = loaded ++ new
             ∧ Forall2 (λ file doc, load file = Ok doc) pdfs new
  | Throw e =>
      ∃ before file after,
        pdfs = before ++ file :: after
        ∧ Forall (λ f, ∃ doc, load f = Ok doc) before
        ∧ load file = Throw e
  end.
Proof.
  revert loaded. induction pdfs as [|file rest IH]; intros loaded; simpl.
  - exists []. by rewrite app_nil_r.
  - destruct (load file) as [doc | e] eqn:E; simpl.
    + specialize (IH (loaded ++ [doc])).
      destruct (load_loop load rest (loaded ++ [doc])) as [docs | e].
      * destruct IH as (new & -> & Hnew). exists (doc :: new).
        rewrite <- app_assoc. split; [done | by constructor].
      * destruct IH as (before & f & after & -> & Hb & Hf).
        exists (file :: before), f, after. repeat split; try done.
        constructor; [by exists doc | done].
    + by exists [], file, rest.
Qed.

Lemma load_loop_from_empty pdfs loaded :
  load_loop load pdfs loaded
  = bind (load_loop load pdfs []) (λ docs, Ok (loaded ++ docs)).
Proof.
  revert loaded. induction pdfs as [|file rest IH]; intros loaded; simpl.
  - by rewrite app_nil_r.
  - destruct (load file) as [doc|]; simpl; [| done].
    rewrite (IH (loaded ++ [doc])), (IH [doc]).
    destruct (load_loop load rest []); simpl; [| done].
    by rewrite <- app_assoc.
Qed.

(** [listPdfs] is the loading loop of [join], with the name and the page
    count kept of each document. *)
Lemma listPdfs_loop_load pdfs result :
  listPdfs_loop load pdfs result
  = bind (load_loop load pdfs []) (λ docs, Ok (result ++ infos pdfs docs)).
Proof.
  revert result. induction pdfs as [|file rest IH]; intros result; simpl.
  - by rewrite app_nil_r.
  - destruct (load file) as [doc|]; simpl; [| done].
    rewrite IH, (load_loop_from_empty rest [doc]).
    destruct (load_loop load rest []); simpl; [| done].
    by rewrite <- app_assoc.
Qed.

Lemma listPdfs_load pdfs :
  listPdfs load pdfs
  = bind (load_loop load pdfs []) (λ docs, Ok (infos pdfs docs)).
Proof. unfold listPdfs. by rewrite listPdfs_loop_load. Qed.

Lemma infos_same_pages pdfs docs :
  length pdfs = length docs → same_pages docs (infos pdfs docs).
Proof.
  unfold same_pages, infos. revert docs.
  induction pdfs as [|file rest IH]; intros [|doc docs] Hlen; try done.
  simpl. f_equal. apply IH. simpl in Hlen. lia.
Qed.

Lemma infos_files pdfs docs :
  length pdfs = length docs → file <$> infos pdfs docs = pdfs.
Proof.
  unfold infos. revert docs.
  induction pdfs as [|f rest IH]; intros [|doc docs] Hlen; try done.
  simpl. f_equal. apply IH. simpl in Hlen. lia.
Qed.

(** X12. [listPdfs] returns one entry per file, in the order of the
    files, each with the name of its file and the page count of the
    document in it; when a file cannot be loaded it throws what loading
    the first such file throws, and returns no partial list. *)
Theorem listPdfs_outcome pdfs :
  match listPdfs load pdfs with
  | Ok info =>
      ∃ docs, Forall2 (λ file doc, load file = Ok doc) pdfs docs
              ∧ file <$> info = pdfs
              ∧ pages <$> info = getPageCount <$> docs
  | Throw e =>
      ∃ before file after,
        pdfs = before ++ file :: after
        ∧ Forall (λ f, ∃ doc, load f = Ok doc) before
        ∧ load file = Throw e
  end.
Proof.
  rewrite listPdfs_load. pose proof (load_loop_outcome pdfs []) as Hout.
  destruct (load_loop load pdfs []) as [docs | e]; simpl; [| done].
  destruct Hout as (new & -> & Hnew). simpl. exists new.
  pose proof (Forall2_length _ _ _ Hnew) as Hlen.
  split; [done |]. split; [by apply infos_files |].
  symmetry. by apply infos_same_pages.
Qed.

(** The usage records built from the file names are those built from
    the inventory: [info[idx]] is there for every file. *)
Lemma usage_from_infos pdfs docs before :
  length pdfs = length docs →
  usage_from (before ++ infos pdfs docs) (length before) pdfs
  = Ok ((λ d, mkUsage (file d) (pages d) ∅) <$> infos pdfs docs).
Proof.
  revert docs before.
  induction pdfs as [|f rest IH]; intros [|doc docs] before Hlen; try done.
  simpl. rewrite lookup_app_r by done. rewrite Nat.sub_diag. simpl.
  specialize (IH docs (before ++ [mkPdfInfo f (getPageCount doc)])).
  rewrite length_app in IH. simpl in IH.
  rewrite <- app_assoc, Nat.add_1_r in IH. simpl in IH.
  rewrite IH; [done |]. simpl in Hlen. lia.
Qed.

Lemma testList_pdfs_listPdfs pdfs joinList :
  testList_pdfs load pdfs joinList
  = bind (listPdfs load pdfs) (λ info, testList info joinList).
Proof.
  unfold testList_pdfs. rewrite listPdfs_load.
  pose proof (load_loop_outcome pdfs []) as Hout.
  destruct (load_loop load pdfs []) as [docs | e]; simpl; [| done].
  destruct Hout as (new & -> & Hnew). simpl.
  pose proof (Forall2_length _ _ _ Hnew) as Hlen.
  pose proof (usage_from_infos pdfs new [] Hlen) as Hu. simpl in Hu.
  by rewrite Hu.
Qed.

(** X13. [testList] from the file names is [listPdfs] followed by the
    validation against its inventory: reading [info[idx]] for the usage
    records never fails, and the records of the result are one per file,
    in the order of the files, each with the name of its file and the
    page count of the inventory. *)
Theorem testList_pdfs_usage pdfs joinList result :
  testList_pdfs load pdfs joinList = Ok result →
  ∃ info,
    listPdfs load pdfs = Ok info
    ∧ testList info joinList = Ok result
    ∧ usage_file <$> usage result = pdfs
    ∧ totalPages <$> usage result = pages <$> info.
Proof.
  rewrite testList_pdfs_listPdfs.
  pose proof (listPdfs_load pdfs) as Hload.
  destruct (listPdfs load pdfs) as [info | e] eqn:Hinfo; simpl; [| done].
  intros Hrun. exists info. split; [done |]. split; [done |].
  assert (file <$> info = pdfs) as Hfiles.
  { pose proof (load_loop_outcome pdfs []) as Hout.
    destruct (load_loop load pdfs []) as [docs | e]; simpl in Hload; [| done].
    destruct Hout as (new & -> & Hnew). injection Hload as ->. simpl.
    apply infos_files. by eapply Forall2_length. }
  assert (∀ d f, info !! d = Some f →
            ∃ u, usage result !! d = Some u
                 ∧ usage_file u = file f ∧ totalPages u = pages f) as Hrec.
  { intros d f Hd.
    destruct (forEach_records info f d [] 0 joinList (initial_result info)
                result (initial_result_records info f d Hd) Hrun)
      as (u & Hu & Hf & Ht & _). by exists u. }
  pose proof (forEach_length _ _ _ _ _ Hrun) as Hlen.
  rewrite initial_result_length in Hlen.
  rewrite <- Hfiles. split; apply list_eq; intros d;
    rewrite !list_lookup_fmap;
    destruct (info !! d) as [f|] eqn:Hd; simpl.
  - destruct (Hrec d f Hd) as (u & Hu & Hf & _). rewrite Hu. simpl.
    by rewrite Hf.
  - apply lookup_ge_None in Hd. rewrite lookup_ge_None_2 by lia. done.
  - destruct (Hrec d f Hd) as (u & Hu & _ & Ht). rewrite Hu. simpl.
    by rewrite Ht.
  - apply lookup_ge_None in Hd. rewrite lookup_ge_None_2 by lia. done.
Qed.

(** X14. A file that cannot be loaded makes [join], [testList] and
    [listPdfs] throw what loading it throws, before any entry of the
    join list is looked at: whatever the join list, be it empty, invalid
    or without a reference to that file. *)
Theorem load_failure_first before file after e joinList :
  Forall (λ f, ∃ doc, load f = Ok doc) before →
  load file = Throw e →
  listPdfs load (before ++ file :: after) = Throw e
  ∧ join_pdfs load (before ++ file :: after) joinList = Throw e
  ∧ testList_pdfs load (before ++ file :: after) joinList = Throw e.
Proof.
  intros Hbefore Hfile.
  assert (∀ loaded, load_loop load (before ++ file :: after) loaded = Throw e)
    as Hloop.
  { induction Hbefore as [|f rest [doc Hdoc] _ IH]; intros loaded; simpl.
    - by rewrite Hfile.
    - rewrite Hdoc. simpl. apply IH. }
  unfold join_pdfs. rewrite testList_pdfs_listPdfs, listPdfs_load, Hloop.
  done.
Qed.

End LoadingProperties.

Lemma testList_pdfs_usage_witness :
  ∃ info,
    listPdfs example_load ["a.pdf"; "b.pdf"] = Ok info
    ∧ testList info example_joinList
      = Ok (mkTestResult []
              [ mkUsage "a.pdf" 12 (<["1" := 1]> (<["5" := 1]> ∅));
                mkUsage "b.pdf" 7
                  (<["2" := 1]> (<["3" := 1]> (<["4" := 1]> ∅))) ])
    ∧ [ "a.pdf"; "b.pdf" ] = ["a.pdf"; "b.pdf"]
    ∧ [12; 7] = pages <$> info.
Proof.
  apply (testList_pdfs_usage example_load ["a.pdf"; "b.pdf"]
           example_joinList
           (mkTestResult []
              [ mkUsage "a.pdf" 12 (<["1" := 1]> (<["5" := 1]> ∅));
                mkUsage "b.pdf" 7
                  (<["2" := 1]> (<["3" := 1]> (<["4" := 1]> ∅))) ])).
  vm_compute. reflexivity.
Defined.

Lemma load_failure_first_witness :
  listPdfs example_load (["a.pdf"] ++ "c.pdf" :: ["b.pdf"])
  = Throw (Error "ENOENT: no such file or directory, open 'c.pdf'")
  ∧ join_pdfs example_load (["a.pdf"] ++ "c.pdf" :: ["b.pdf"]) []
    = Throw (Error "ENOENT: no such file or directory, open 'c.pdf'")
  ∧ testList_pdfs example_load (["a.pdf"] ++ "c.pdf" :: ["b.pdf"]) []
    = Throw (Error "ENOENT: no such file or directory, open 'c.pdf'").
Proof.
  apply (load_failure_first example_load ["a.pdf"] "c.pdf" ["b.pdf"]).
  - repeat constructor. by eexists.
  - reflexivity.
Defined.

(** ** Doubles beyond 2^53 *)

Section Mantissa.

Local Open Scope N_scope.






End Mantissa.

(** ** What parsePages makes of a string *)








(** ** More on the decoder of the inline notation *)

Lemma split_length sep s :
  length (Js.split sep s) = S (count_char sep s).
Proof.
  induction s as [|c s IH]; simpl; [done |].
  pose proof (split_nonempty sep s) as Hne.
  destruct (Js.split sep s) as [|t ts]; [done |].
  case_decide; simpl in *; lia.
Qed.

(** X16. A definition that [parsePagesArg] decodes gives one entry more
    than it has commas: never an empty join list, one blank page for the
    empty string, and a blank page for a comma at either end or two
    commas in a row. *)
Theorem parsePagesArg_length arg items :
  parsePagesArg arg = Ok items →
  length items = S (count_char "," arg)
  ∧ ∀ i token,
      (Js.trim <$> Js.split "," arg) !! i = Some token → token = "" →
      items !! i = Some (mkJoinItem None None (Some true)).
Proof.
  intros Hrun. pose proof (parse_tokens_spec (Js.trim <$> Js.split "," arg) [])
    as H.
  unfold parsePagesArg in Hrun. rewrite Hrun in H.
  destruct H as (new & -> & H). simpl. split.
  - rewrite <- (Forall2_length _ _ _ H), length_fmap. apply split_length.
  - intros i token Hi ->.
    destruct (Forall2_lookup_l _ _ _ _ _ H Hi) as (item & Hitem & Htok).
    rewrite Hitem. f_equal.
    apply token_result_item in Htok. by injection Htok as <-.
Qed.

Lemma parsePagesArg_length_witness :
  length [mkJoinItem None None (Some true)] = S (count_char "," "")
  ∧ ∀ i token,
      (Js.trim <$> Js.split "," "") !! i = Some token → token = "" →
      [mkJoinItem None None (Some true)] !! i
      = Some (mkJoinItem None None (Some true)).
Proof. apply (parsePagesArg_length "" _). reflexivity. Defined.



Lemma as_double_whole n : whole_number (as_double n).
Proof.
  unfold as_double. pose proof (nearest_double_number n).
  destruct (nearest_double n) as [v| |]; simpl; [| by right | done].
  left. exists (Z.of_N v). split; [done | lia].
Qed.

Lemma token_item_decoded token item : token_item token item → decoded_item item.
Proof.
  intros [| t _ | d1 d2 H1 H2 | d1 d2 d3 H1 H2 H3].
  - by left.
  - by left.
  - right. eexists _, _. split; [done |]. split; [apply as_double_whole |].
    left. eexists. split; [done | apply as_double_whole].
  - right. eexists _, _. split; [done |]. split; [apply as_double_whole |].
    right. by exists d2, d3.
Qed.

Lemma parsePagesArg_decoded arg items :
  parsePagesArg arg = Ok items → Forall decoded_item items ∧ items ≠ [].
Proof.
  intros Hrun. pose proof (parse_tokens_spec (Js.trim <$> Js.split "," arg) [])
    as H.
  unfold parsePagesArg in Hrun. rewrite Hrun in H.
  destruct H as (new & -> & H). simpl. clear Hrun. split.
  - induction H as [|token item tokens new Hitem _ IH]; [constructor |].
    constructor; [by eapply token_item_decoded | done].
  - apply Forall2_length in H. rewrite length_fmap, split_length in H.
    by destruct new.
Qed.




(** *** Spelling a join list *)








(** ** The choice between --join and --pages *)

Lemma given_Some o : given o = true ↔ ∃ s, o = Some s ∧ s ≠ "".
Proof.
  destruct o as [s|]; simpl.
  - rewrite negb_true_iff, bool_decide_eq_false. split.
    + intros H. by exists s.
    + by intros (? & [= <-] & ?).
  - split; [done | by intros (? & ? & _)].
Qed.

(** X19. What the [validate] and [join] commands go on with. A join
    list decoded from [--pages] comes only with [--join] absent or
    empty and a definition that is not empty, is what [parsePagesArg]
    gives for the definition, and is never empty. The file of [--join]
    is taken only with [--pages] absent or empty. The command fails
    with [Use either --join or --pages, not both.] exactly when both
    are given, without decoding, with [You must specify ...] when none
    is, an empty definition counting as none although [parsePagesArg]
    reads the empty string as one blank page, and else with the error
    of [parsePagesArg], passed on as it is. *)
Theorem join_data_pages join_opt pages_opt :
  match join_data join_opt pages_opt with
  | Ok (FromPages items) =>
      given join_opt = false
      ∧ (∃ arg, pages_opt = Some arg ∧ arg ≠ ""
                ∧ parsePagesArg arg = Ok items)
      ∧ items ≠ [] ∧ Forall decoded_item items
  | Ok (FromFile path) =>
      join_opt = Some path ∧ path ≠ "" ∧ given pages_opt = false
  | Throw message =>
      (given join_opt = true ∧ given pages_opt = true
       ∧ message = "Use either --join or --pages, not both.")
      ∨ (given join_opt = false
         ∧ (pages_opt = None
            ∨ pages_opt = Some ""
              ∧ parsePagesArg "" = Ok [mkJoinItem None None (Some true)])
         ∧ message
           = "You must specify either --join <file> or --pages <definition>")
      ∨ (given join_opt = false
         ∧ ∃ arg, pages_opt = Some arg ∧ arg ≠ ""
                  ∧ parsePagesArg arg = Throw message)
  end.
Proof.
  unfold join_data.
  destruct (given join_opt) eqn:Hj, (given pages_opt) eqn:Hp; simpl.
  - by left.
  - apply given_Some in Hj as (path & -> & Hne). by simpl.
  - apply given_Some in Hp as (arg & -> & Hne). simpl.
    destruct (parsePagesArg arg) as [items | message] eqn:Hrun.
    + apply parsePagesArg_decoded in Hrun as Hd. destruct Hd as [Hd Hne'].
      split; [done |]. split; [by exists arg | done].
    + right. right. split; [done |]. by exists arg.
  - right. left. split; [done |]. split; [| done].
    destruct pages_opt as [arg|]; [| by left]. right.
    simpl in Hp. apply negb_false_iff, bool_decide_eq_true in Hp as ->.
    done.
Qed.

(** ** Where the assembler stops and what the validator says first *)






(** ** Validating an inline definition *)







(** ** Validating and assembling, from the file names *)

Section FromFiles.

Variable load : string → res exn PDFDocument.


End FromFiles.
